(** * chaos-leave: the k6 load script [scripts/load.js]

    A shallow embedding of the load driver and of the JavaScript built-ins it
    calls, followed by the properties of its configuration resolution, chaos
    string assembly, request-target construction and per-iteration effects. *)

From Stdlib Require Import ZArith QArith Qreduction Lia List Ascii String.
From stdpp Require Import base option list strings gmap.

Local Open Scope Z_scope.

(** ** JavaScript strings

    A JavaScript string is a finite sequence of 16-bit code units. *)

Abbreviation jsstring := (list Z).

(** The code units of a literal of the script (every literal of [load.js] is
    ASCII; a byte [b] stands for the code unit [b]). *)
Definition js (s : string) : jsstring :=
  (λ a, Z.of_N (N_of_ascii a)) <$> list_ascii_of_string s.

Definition is_code_unit (c : Z) : bool := (0 <=? c) && (c <=? 0xFFFF).
Definition is_leading_surrogate (c : Z) : bool := (0xD800 <=? c) && (c <=? 0xDBFF).
Definition is_trailing_surrogate (c : Z) : bool := (0xDC00 <=? c) && (c <=? 0xDFFF).

(** ECMAScript [UTF16SurrogatePairToCodePoint]. *)
Definition UTF16SurrogatePairToCodePoint (lead trail : Z) : Z :=
  (lead - 0xD800) * 0x400 + (trail - 0xDC00) + 0x10000.

Record CodePointRecord := {
  CodePoint : Z;
  CodeUnitCount : nat;
  IsUnpairedSurrogate : bool
}.

(** ECMAScript [CodePointAt(string, position)], on the suffix of the string
    that starts at [position]: [first] is the code unit at that position and
    [rest] what follows it. *)
Definition CodePointAt (first : Z) (rest : jsstring) : CodePointRecord :=
  if negb (is_leading_surrogate first) && negb (is_trailing_surrogate first) then
    {| CodePoint := first; CodeUnitCount := 1; IsUnpairedSurrogate := false |}
  else if is_trailing_surrogate first then
    {| CodePoint := first; CodeUnitCount := 1; IsUnpairedSurrogate := true |}
  else
    match rest with
    | [] => {| CodePoint := first; CodeUnitCount := 1; IsUnpairedSurrogate := true |}
    | second :: _ =>
      if negb (is_trailing_surrogate second) then
        {| CodePoint := first; CodeUnitCount := 1; IsUnpairedSurrogate := true |}
      else
        {| CodePoint := UTF16SurrogatePairToCodePoint first second;
           CodeUnitCount := 2; IsUnpairedSurrogate := false |}
    end.

(** ECMAScript [IsStringWellFormedUnicode]: every element is a code unit and
    no surrogate is unpaired. The loop over positions is run on the remaining
    suffix, with the length of the string as its budget. *)
Fixpoint well_formed_loop (budget : nat) (s : jsstring) : bool :=
  match s with
  | [] => true
  | first :: rest =>
    match budget with
    | O => false
    | S budget' =>
      let cp := CodePointAt first rest in
      if IsUnpairedSurrogate cp then false
      else forallb is_code_unit (take (CodeUnitCount cp) s)
           && well_formed_loop budget' (drop (CodeUnitCount cp) s)
    end
  end.

Definition IsStringWellFormedUnicode (s : jsstring) : bool :=
  well_formed_loop (length s) s.

(** ** The environment

    [__ENV] maps variable names to strings; a variable that is not set reads
    as [undefined]. k6 hands the values over as text: well-formed Unicode,
    that is, strings without unpaired surrogates. *)

Record ustring := UString {
  code_units :> jsstring;
  ustring_wf : Is_true (IsStringWellFormedUnicode code_units)
}.

Abbreviation Env := (gmap string ustring).

(** [__ENV.k], of type [string | undefined] ([None] is [undefined]). *)
Definition ENV (env : Env) (k : string) : option jsstring :=
  code_units <$> env !! k.

(** [ToBoolean] and [ToString] at the types [string] and
    [string | undefined]. *)
Definition truthy (s : jsstring) : bool :=
  match s with [] => false | _ :: _ => true end.

Definition ToBoolean (v : option jsstring) : bool :=
  match v with Some s => truthy s | None => false end.

Definition ToString (v : option jsstring) : jsstring :=
  match v with Some s => s | None => js "undefined" end.

(** The logical OR [v || d] for [v : string | undefined]: [v] when it is
    truthy (injected by [inj] into the type of the result), [d] otherwise. *)
Definition logical_or {A : Type} (inj : jsstring → A) (v : option jsstring)
  (d : A) : A :=
  match v with
  | Some s => if truthy s then inj s else d
  | None => d
  end.

(** [Array.prototype.push] and [Array.prototype.join] on an array of
    strings. *)
Definition push (parts : list jsstring) (x : jsstring) : list jsstring :=
  parts ++ [x].

Fixpoint join (sep : jsstring) (parts : list jsstring) : jsstring :=
  match parts with
  | [] => []
  | [x] => x
  | x :: rest => x ++ sep ++ join sep rest
  end.

(** ** Chaos string assembly (load.js, lines 13-20) *)

Definition chaos_string (env : Env) : jsstring :=
  let chaos := logical_or id (ENV env "CHAOS") (js "") in
  if negb (truthy chaos) then
    let parts := [] in
    let parts :=
      if ToBoolean (ENV env "LAT")
      then push parts (js "lat:" ++ ToString (ENV env "LAT")) else parts in
    let parts :=
      if ToBoolean (ENV env "ERR")
      then push parts (js "err:" ++ ToString (ENV env "ERR")) else parts in
    let parts :=
      if ToBoolean (ENV env "CPU")
      then push parts (js "cpu:" ++ ToString (ENV env "CPU")) else parts in
    join (js ",") parts
  else chaos.

(** ** Abrupt completions

    The only exception the script's built-ins raise is [URIError]. *)

Inductive error := URIError.

Inductive completion (A : Type) :=
  | Normal (a : A)
  | Throw (e : error).
Arguments Normal {A} a.
Arguments Throw {A} e.

#[global] Instance completion_ret : MRet completion := λ A a, Normal a.
#[global] Instance completion_bind : MBind completion := λ A B f m,
  match m with
  | Normal a => f a
  | Throw e => Throw e
  end.

(** ** [encodeURIComponent] and [decodeURIComponent] (ECMAScript 19.2.6) *)

(** The UTF-8 transformation of a code point into its octets. *)
Definition utf8_octets (cp : Z) : list Z :=
  if cp <? 0x80 then [cp]
  else if cp <? 0x800 then [0xC0 + cp / 0x40; 0x80 + cp mod 0x40]
  else if cp <? 0x10000 then
    [0xE0 + cp / 0x1000; 0x80 + (cp / 0x40) mod 0x40; 0x80 + cp mod 0x40]
  else
    [0xF0 + cp / 0x40000; 0x80 + (cp / 0x1000) mod 0x40;
     0x80 + (cp / 0x40) mod 0x40; 0x80 + cp mod 0x40].

(** The code unit of the uppercase hexadecimal digit of value [d]. *)
Definition hex_digit (d : Z) : Z :=
  if d <? 10 then 0x30 + d else 0x41 + (d - 10).

(** ["%"] followed by the octet as two uppercase hexadecimal digits. *)
Definition percent_escape (octet : Z) : jsstring :=
  [0x25; hex_digit (octet / 16); hex_digit (octet mod 16)].

Definition contains (set : jsstring) (c : Z) : bool := existsb (Z.eqb c) set.

(** The ASCII word characters followed by ["-.!~*'()"]. *)
Definition alwaysUnescaped : jsstring :=
  js "ABCDEFGHIJKLMNOPQRSTUVWXYZabcdefghijklmnopqrstuvwxyz0123456789_"
  ++ js "-.!~*'()".

(** ECMAScript [Encode(string, extraUnescaped)]. Each turn of the loop
    consumes one code point of the remaining suffix [s]; [budget] bounds the
    number of turns and is the length of the string. *)
Fixpoint Encode_loop (budget : nat) (unescapedSet s : jsstring)
  : completion jsstring :=
  match budget, s with
  | O, _ | _, [] => Normal []
  | S budget', C :: rest =>
    if contains unescapedSet C then
      R ← Encode_loop budget' unescapedSet rest; Normal (C :: R)
    else
      let cp := CodePointAt C rest in
      if IsUnpairedSurrogate cp then Throw URIError
      else
        let Octets := utf8_octets (CodePoint cp) in
        R ← Encode_loop budget' unescapedSet (drop (CodeUnitCount cp) s);
        Normal (concat (percent_escape <$> Octets) ++ R)
  end.

Definition Encode (string extraUnescaped : jsstring) : completion jsstring :=
  Encode_loop (length string) (alwaysUnescaped ++ extraUnescaped) string.

Definition encodeURIComponent (uriComponent : jsstring) : completion jsstring :=
  Encode uriComponent (js "").

(** The value of a hexadecimal digit, of either case. *)
Definition hex_value (c : Z) : option Z :=
  if (0x30 <=? c) && (c <=? 0x39) then Some (c - 0x30)
  else if (0x41 <=? c) && (c <=? 0x46) then Some (c - 0x41 + 10)
  else if (0x61 <=? c) && (c <=? 0x66) then Some (c - 0x61 + 10)
  else None.

(** ECMAScript [ParseHexOctet], on the two code units after the ["%"]. *)
Definition ParseHexOctet (h1 h2 : Z) : option Z :=
  hi ← hex_value h1; lo ← hex_value h2; Some (hi * 16 + lo).

(** The number of leading 1 bits of an octet. *)
Fixpoint leading_ones_below (bit : nat) (B : Z) : nat :=
  match bit with
  | O => O
  | S bit' =>
    if Z.testbit B (Z.of_nat bit') then S (leading_ones_below bit' B) else O
  end.

Definition leading_ones (B : Z) : nat := leading_ones_below 8 B.

(** The [j] continuation octets read by steps 4.c.viii.4 of [Decode]: each is
    a ["%"] and two hexadecimal digits. *)
Fixpoint continuation_octets (j : nat) (s : jsstring)
  : option (list Z * jsstring) :=
  match j with
  | O => Some ([], s)
  | S j' =>
    match s with
    | p :: h1 :: h2 :: rest =>
      if p =? 0x25 then
        B ← ParseHexOctet h1 h2;
        '(Bs, rest') ← continuation_octets j' rest;
        Some (B :: Bs, rest')
      else None
    | _ => None
    end
  end.

Definition is_continuation (b : Z) : bool := (0x80 <=? b) && (b <=? 0xBF).

(** The code point of a valid UTF-8 encoding: continuation octets of the form
    10xxxxxx, no overlong form, no surrogate, nothing above U+10FFFF. *)
Definition utf8_code_point (Octets : list Z) : option Z :=
  match Octets with
  | [b0; b1] =>
    let V := (b0 - 0xC0) * 0x40 + (b1 - 0x80) in
    if (0xC0 <=? b0) && (b0 <=? 0xDF) && is_continuation b1 && (0x80 <=? V)
    then Some V else None
  | [b0; b1; b2] =>
    let V := (b0 - 0xE0) * 0x1000 + (b1 - 0x80) * 0x40 + (b2 - 0x80) in
    if (0xE0 <=? b0) && (b0 <=? 0xEF)
       && is_continuation b1 && is_continuation b2 && (0x800 <=? V)
       && negb ((0xD800 <=? V) && (V <=? 0xDFFF))
    then Some V else None
  | [b0; b1; b2; b3] =>
    let V := (b0 - 0xF0) * 0x40000 + (b1 - 0x80) * 0x1000
             + (b2 - 0x80) * 0x40 + (b3 - 0x80) in
    if (0xF0 <=? b0) && (b0 <=? 0xF7)
       && is_continuation b1 && is_continuation b2 && is_continuation b3
       && (0x10000 <=? V) && (V <=? 0x10FFFF)
    then Some V else None
  | _ => None
  end.

(** ECMAScript [UTF16EncodeCodePoint]. *)
Definition UTF16EncodeCodePoint (cp : Z) : jsstring :=
  if cp <=? 0xFFFF then [cp]
  else [(cp - 0x10000) / 0x400 + 0xD800; (cp - 0x10000) mod 0x400 + 0xDC00].

(** ECMAScript [Decode(string, preserveEscapeSet)], on the remaining suffix,
    with the length of the string as the bound on the turns of its loop. *)
Fixpoint Decode_loop (budget : nat) (preserveEscapeSet s : jsstring)
  : completion jsstring :=
  match budget, s with
  | O, _ | _, [] => Normal []
  | S budget', C :: rest =>
    if C =? 0x25 then
      match rest with
      | h1 :: h2 :: rest2 =>
        match ParseHexOctet h1 h2 with
        | None => Throw URIError
        | Some B =>
          let n := leading_ones B in
          if (n =? 0)%nat then
            let S := if contains preserveEscapeSet B then [C; h1; h2] else [B] in
            R ← Decode_loop budget' preserveEscapeSet rest2; Normal (S ++ R)
          else if (n =? 1)%nat || (4 <? n)%nat then Throw URIError
          else
            match continuation_octets (n - 1) rest2 with
            | None => Throw URIError
            | Some (Bs, rest') =>
              match utf8_code_point (B :: Bs) with
              | None => Throw URIError
              | Some V =>
                R ← Decode_loop budget' preserveEscapeSet rest';
                Normal (UTF16EncodeCodePoint V ++ R)
              end
            end
        end
      | _ => Throw URIError
      end
    else R ← Decode_loop budget' preserveEscapeSet rest; Normal (C :: R)
  end.

Definition Decode (string preserveEscapeSet : jsstring) : completion jsstring :=
  Decode_loop (length string) preserveEscapeSet string.

Definition decodeURIComponent (encoded : jsstring) : completion jsstring :=
  Decode encoded (js "").

(** ** Numbers

    A Number is an IEEE 754 binary64 value; a finite nonzero one is
    represented by the rational it denotes, in lowest terms. *)

Inductive number :=
  | NaN
  | Infinity (negative : bool)
  | Zero (negative : bool)
  | Finite (x : Q).

(** The rational [m * 2 ^ u], in lowest terms. *)
Definition dyadic (m u : Z) : Q :=
  if 0 <=? u then inject_Z (m * 2 ^ u)
  else Qred (Qmake m (Z.to_pos (2 ^ (- u)))).

(** [floor (log2 (p / q))] for positive [p] and [q]. *)
Definition floor_log2 (p q : Z) : Z :=
  let e := Z.log2 p - Z.log2 q in
  if (if 0 <=? e then q * 2 ^ e <=? p else q <=? p * 2 ^ (- e))
  then e else e - 1.

(** The integer nearest to [num / den], ties to even. *)
Definition round_half_even (num den : Z) : Z :=
  let n := num / den in
  let r := num mod den in
  if 2 * r <? den then n
  else if den <? 2 * r then n + 1
  else if Z.even n then n else n + 1.

(** The Number value for the real [± p / q] ([0 <= p], [0 < q]): the
    binary64 value nearest to it, ties to even, with 53-bit significands,
    least quantum [2 ^ -1074] and overflow to infinity from [2 ^ 1024]. *)
Definition number_for (negative : bool) (p q : Z) : number :=
  if p =? 0 then Zero negative
  else
    let u := Z.max (floor_log2 p q) (-1022) - 52 in
    let m := if 0 <=? u then round_half_even p (q * 2 ^ u)
             else round_half_even (p * 2 ^ (- u)) q in
    if m =? 0 then Zero negative
    else if (0 <=? u) && (2 ^ 1024 <=? m * 2 ^ u) then Infinity negative
    else Finite (if negative then Qopp (dyadic m u) else dyadic m u).

(** The Number value of an integer literal of the script. *)
Definition integer (n : Z) : number := number_for (n <? 0) (Z.abs n) 1.

(** *** [StringToNumber] (ECMAScript 7.1.4.1.1) *)

(** [StrWhiteSpaceChar]: [WhiteSpace] and [LineTerminator]. *)
Definition is_StrWhiteSpaceChar (c : Z) : bool :=
  contains [0x9; 0xA; 0xB; 0xC; 0xD; 0x20; 0xA0; 0x1680; 0x2028; 0x2029;
            0x202F; 0x205F; 0x3000; 0xFEFF] c
  || ((0x2000 <=? c) && (c <=? 0x200A)).

Fixpoint skip_white (s : jsstring) : jsstring :=
  match s with
  | c :: rest => if is_StrWhiteSpaceChar c then skip_white rest else s
  | [] => []
  end.

(** The string without its leading and trailing [StrWhiteSpace]. *)
Definition trim (s : jsstring) : jsstring :=
  reverse (skip_white (reverse (skip_white s))).

Definition is_decimal_digit (c : Z) : bool := (0x30 <=? c) && (c <=? 0x39).
Definition is_octal_digit (c : Z) : bool := (0x30 <=? c) && (c <=? 0x37).
Definition is_binary_digit (c : Z) : bool := (0x30 <=? c) && (c <=? 0x31).
Definition is_hex_digit (c : Z) : bool := bool_decide (is_Some (hex_value c)).

(** The longest prefix of digits, and what follows it. *)
Fixpoint span_digits (is_digit : Z → bool) (s : jsstring)
  : jsstring * jsstring :=
  match s with
  | c :: rest =>
    if is_digit c
    then let '(ds, r) := span_digits is_digit rest in (c :: ds, r)
    else ([], s)
  | [] => ([], [])
  end.

(** The mathematical value of a sequence of digits in the given base. *)
Definition digits_value (base : Z) (ds : jsstring) : Z :=
  fold_left (λ acc c, acc * base + default 0 (hex_value c)) ds 0.

(** The mathematical value of a numeric literal, before rounding:
    infinity, or [m * 10 ^ e10] with [0 <= m]. *)
Inductive MV :=
  | MVInfinity
  | MVDecimal (m e10 : Z).

(** [ExponentPart_opt] at the end of the literal: the exponent it denotes. *)
Definition ExponentPart_opt (s : jsstring) : option Z :=
  match s with
  | [] => Some 0
  | e :: rest =>
    if (e =? 0x65) || (e =? 0x45) then
      let '(negative, rest) :=
        match rest with
        | sign :: rest' =>
          if sign =? 0x2B then (false, rest')
          else if sign =? 0x2D then (true, rest')
          else (false, rest)
        | [] => (false, rest)
        end in
      let '(ds, r) := span_digits is_decimal_digit rest in
      match ds, r with
      | _ :: _, [] =>
        Some (if negative then - digits_value 10 ds else digits_value 10 ds)
      | _, _ => None
      end
    else None
  end.

(** [StrUnsignedDecimalLiteral]: [Infinity], or digits with an optional
    fraction and exponent, at least one digit before or after the point. *)
Definition StrUnsignedDecimalLiteral (s : jsstring) : option MV :=
  if bool_decide (s = js "Infinity") then Some MVInfinity
  else
    let '(ip, r1) := span_digits is_decimal_digit s in
    let '(fp, r2) :=
      match r1 with
      | dot :: r => if dot =? 0x2E then span_digits is_decimal_digit r
                    else ([], r1)
      | [] => ([], r1)
      end in
    match ip ++ fp with
    | [] => None
    | _ :: _ =>
      e ← ExponentPart_opt r2;
      Some (MVDecimal (digits_value 10 (ip ++ fp)) (e - Z.of_nat (length fp)))
    end.

(** [NonDecimalIntegerLiteral]: [0b], [0o] or [0x] (of either case) and at
    least one digit of that base. *)
Definition NonDecimalIntegerLiteral (s : jsstring) : option MV :=
  match s with
  | zero :: x :: ds =>
    let literal (base : Z) (is_digit : Z → bool) :=
      match span_digits is_digit ds with
      | (_ :: _, []) => Some (MVDecimal (digits_value base ds) 0)
      | _ => None
      end in
    if negb (zero =? 0x30) then None
    else if (x =? 0x62) || (x =? 0x42) then literal 2 is_binary_digit
    else if (x =? 0x6F) || (x =? 0x4F) then literal 8 is_octal_digit
    else if (x =? 0x78) || (x =? 0x58) then literal 16 is_hex_digit
    else None
  | _ => None
  end.

(** The Number value of a mathematical value. *)
Definition RoundMVResult (negative : bool) (v : MV) : number :=
  match v with
  | MVInfinity => Infinity negative
  | MVDecimal m e10 =>
    if 0 <=? e10 then number_for negative (m * 10 ^ e10) 1
    else number_for negative m (10 ^ (- e10))
  end.

(** [StrNumericLiteral]: a non-decimal integer literal, or an optionally
    signed decimal literal. *)
Definition StrNumericLiteral (s : jsstring) : option number :=
  match NonDecimalIntegerLiteral s with
  | Some v => Some (RoundMVResult false v)
  | None =>
    match s with
    | sign :: rest =>
      if sign =? 0x2B then RoundMVResult false <$> StrUnsignedDecimalLiteral rest
      else if sign =? 0x2D then RoundMVResult true <$> StrUnsignedDecimalLiteral rest
      else RoundMVResult false <$> StrUnsignedDecimalLiteral s
    | [] => None
    end
  end.

(** [StringToNumber]: white space alone denotes [+0]; text that is not a
    [StringNumericLiteral] gives [NaN]. *)
Definition StringToNumber (str : jsstring) : number :=
  match trim str with
  | [] => Zero false
  | text => default NaN (StrNumericLiteral text)
  end.

(** [ToNumber] on the operand types of the script: [Number(v)] for
    [v : string | number]. *)
Inductive primitive :=
  | Str (s : jsstring)
  | Num (n : number).

Definition Number (v : primitive) : number :=
  match v with
  | Str s => StringToNumber s
  | Num n => n
  end.

(** ** Run options (load.js, lines 4-7) *)

Record Options := {
  vus : number;
  duration : jsstring
}.

Definition options (env : Env) : Options := {|
  vus := Number (logical_or Str (ENV env "USERS") (Num (integer 150)));
  duration := logical_or id (ENV env "DUR") (js "3m")
|}.

(** ** The host functions of k6

    [http.get(url, params)] and [sleep(t)]. A host call is modelled as
    returning: the script passes no [throw] parameter, so k6 reports a failed
    request (time-out, connection error, status outside 2xx) in the
    [Response] it returns. *)

Record Params := { timeout : jsstring }.

Record Response := {
  status : Z;
  error_code : Z;
  body : jsstring
}.

Inductive call : Type → Type :=
  | http_get (url : option jsstring) (params : Params) : call Response
  | sleep (t : number) : call unit.

(** A computation of the script: it returns, throws, or calls a host
    function and goes on with what the host answers. *)
Inductive prog (A : Type) : Type :=
  | Ret (a : A)
  | Raise (e : error)
  | Do {X : Type} (c : call X) (k : X → prog A).
Arguments Ret {A} a.
Arguments Raise {A} e.
Arguments Do {A X} c k.

Fixpoint prog_bind {A B : Type} (f : A → prog B) (p : prog A) : prog B :=
  match p with
  | Ret a => f a
  | Raise e => Raise e
  | Do c k => Do c (λ x, prog_bind f (k x))
  end.

#[global] Instance prog_ret : MRet prog := λ A a, Ret a.
#[global] Instance prog_mbind : MBind prog := λ A B f p, prog_bind f p.

Definition lift {A : Type} (m : completion A) : prog A :=
  match m with
  | Normal a => Ret a
  | Throw e => Raise e
  end.

Definition perform {X : Type} (c : call X) : prog X := Do c Ret.

(** ** The iteration body (load.js, lines 9-28) *)

(** Line 22: [chaos ? `${url}?chaos=${encodeURIComponent(chaos)}` : url]. *)
Definition fullUrl (url : option jsstring) (chaos : jsstring)
  : completion (option jsstring) :=
  if truthy chaos then
    encoded ← encodeURIComponent chaos;
    Normal (Some (ToString url ++ js "?chaos=" ++ encoded))
  else Normal url.

Definition default_function (env : Env) : prog unit :=
  let url := ENV env "URL" in
  let chaos := chaos_string env in
  fullUrl ← lift (fullUrl url chaos);
  _ ← perform (http_get fullUrl {| timeout := js "60s" |});
  _ ← perform (sleep (integer 1));
  Ret tt.

(** ** Running a computation against a host *)

Inductive effect :=
  | HttpGet (url : option jsstring) (params : Params)
  | Sleep (t : number).

Definition effect_of {X : Type} (c : call X) : effect :=
  match c with
  | http_get url params => HttpGet url params
  | sleep t => Sleep t
  end.

(** What the host answers to each call. *)
Definition host := ∀ X : Type, call X → X.

(** The calls made, in order, and the completion of the computation. *)
Fixpoint run {A : Type} (h : host) (p : prog A) : list effect * completion A :=
  match p with
  | Ret a => ([], Normal a)
  | Raise e => ([], Throw e)
  | Do c k => let '(t, r) := run h (k (h _ c)) in (effect_of c :: t, r)
  end.

(** ** Predicates used in the statements *)

(** A well-formed string, inductively: code units that are no surrogates,
    and surrogate pairs. *)
Inductive WellFormed : jsstring → Prop :=
  | wf_nil : WellFormed []
  | wf_unit c s :
      is_code_unit c = true → is_leading_surrogate c = false →
      is_trailing_surrogate c = false → WellFormed s → WellFormed (c :: s)
  | wf_pair lead trail s :
      is_leading_surrogate lead = true → is_trailing_surrogate trail = true →
      WellFormed s → WellFormed (lead :: trail :: s).

Definition is_octet (b : Z) : Prop := 0 ≤ b < 256.

(** A Unicode scalar value: a code point that is not a surrogate. *)
Definition is_scalar_value (cp : Z) : Prop :=
  0 ≤ cp ≤ 0x10FFFF ∧ ¬ (0xD800 ≤ cp ≤ 0xDFFF).

(** A non-empty string of decimal digits. *)
Definition decimal_digits (ds : jsstring) : Prop :=
  ds ≠ [] ∧ Forall (λ c, is_decimal_digit c = true) ds.

(** ** The behaviour the specification describes *)

(** Section 8 of the specification: the comma-joined tokens [lat:<LAT>],
    [err:<ERR>], [cpu:<CPU>], in that order, a token being present if and
    only if its input is non-empty; all eight cases. *)
Definition assembled (lat err cpu : option jsstring) : jsstring :=
  match ToBoolean lat, ToBoolean err, ToBoolean cpu with
  | false, false, false => js ""
  | true, false, false => js "lat:" ++ ToString lat
  | false, true, false => js "err:" ++ ToString err
  | false, false, true => js "cpu:" ++ ToString cpu
  | true, true, false =>
    js "lat:" ++ ToString lat ++ js "," ++ js "err:" ++ ToString err
  | true, false, true =>
    js "lat:" ++ ToString lat ++ js "," ++ js "cpu:" ++ ToString cpu
  | false, true, true =>
    js "err:" ++ ToString err ++ js "," ++ js "cpu:" ++ ToString cpu
  | true, true, true =>
    js "lat:" ++ ToString lat ++ js "," ++ js "err:" ++ ToString err
    ++ js "," ++ js "cpu:" ++ ToString cpu
  end.

(** Sections 3 and 4.1 of the specification, step by step and in its
    words; none of these definitions uses [chaos_string], [fullUrl] or
    [default_function]. *)

(** An optional input is present when it is set and non-empty. *)
Definition present (v : option jsstring) : option jsstring :=
  match v with
  | Some (c :: s) => Some (c :: s)
  | _ => None
  end.

(** Chaos string assembly, step 2: a present input appends the token
    [<key>:<value>] to the ordered list. *)
Definition token (key : string) (v : option jsstring) : list jsstring :=
  match present v with
  | Some value => [js key ++ js ":" ++ value]
  | None => []
  end.

(** Step 3: the ordered list joined with [,]; the empty list yields the
    empty string. *)
Definition joined (tokens : list jsstring) : jsstring :=
  match tokens with
  | [] => []
  | first :: others => first ++ concat ((λ t, js "," ++ t) <$> others)
  end.

(** Steps 1 to 3: a full chaos string that is supplied is used verbatim,
    skipping assembly; otherwise latency, error rate and cpu, in that
    order. *)
Definition assemble_ChaosSpec (env : Env) : jsstring :=
  match present (ENV env "CHAOS") with
  | Some full => full
  | None =>
    joined (token "lat" (ENV env "LAT") ++ token "err" (ENV env "ERR")
            ++ token "cpu" (ENV env "CPU"))
  end.

(** What is resolved once, before any iteration: the base URL, which is
    required, and the chaos string. *)
Record Startup := {
  base_url : jsstring;
  ChaosSpec : jsstring
}.

(** [None] is the configuration error of section 7: the base URL is
    missing. *)
Definition startup (env : Env) : option Startup :=
  base ← ENV env "URL";
  Some {| base_url := base; ChaosSpec := assemble_ChaosSpec env |}.

(** Per-iteration execution, step 1: with a non-empty chaos string,
    [?chaos=<url-encoded ChaosSpec>] is appended to the base URL; otherwise
    the base URL is used unmodified. *)
Definition RequestTarget (c : Startup) : completion jsstring :=
  match ChaosSpec c with
  | [] => Normal (base_url c)
  | _ :: _ =>
    escaped ← encodeURIComponent (ChaosSpec c);
    Normal (base_url c ++ js "?chaos=" ++ escaped)
  end.

(** Steps 1 to 3, on the values resolved at startup: the target, one GET
    with the 60-second time-out, the 1-second pacing. *)
Definition iteration_reusing (c : Startup) : prog unit :=
  target ← lift (RequestTarget c);
  _ ← perform (http_get (Some target) {| timeout := js "60s" |});
  _ ← perform (sleep (integer 1));
  Ret tt.

(** ** The iterations of a virtual user

    k6 calls the default function again and again; an iteration that throws
    is recorded and the next one starts. Iteration [i] reads the ambient
    environment as it is then, [ambient i]. *)

Fixpoint recover (p : prog unit) : prog unit :=
  match p with
  | Ret a => Ret a
  | Raise _ => Ret tt
  | Do c k => Do c (λ x, recover (k x))
  end.

Fixpoint vu_iterations (ambient : nat → Env) (i n : nat) : prog unit :=
  match n with
  | O => Ret tt
  | S n' =>
    _ ← recover (default_function (ambient i));
    vu_iterations ambient (S i) n'
  end.

Fixpoint vu_iterations_reusing (c : Startup) (n : nat) : prog unit :=
  match n with
  | O => Ret tt
  | S n' => _ ← recover (iteration_reusing c); vu_iterations_reusing c n'
  end.

(** An environment literal: the string [s] as a value of [__ENV]. *)
Abbreviation ustr s := (UString (js s) I).

(** The scenarios of section 8 of the specification. *)
Definition env_lat_cpu : Env :=
  {[ "URL" := ustr "http://svc/ping"; "LAT" := ustr "100ms";
     "ERR" := ustr ""; "CPU" := ustr "50" ]}.

Definition env_plain : Env := {[ "URL" := ustr "http://svc/ping" ]}.

Definition env_custom : Env :=
  {[ "URL" := ustr "http://svc/ping"; "CHAOS" := ustr "custom:xyz";
     "LAT" := ustr "ignored" ]}.

(** Environments for the cases the specification leaves open. *)
Definition env_no_url : Env := {[ "LAT" := ustr "1" ]}.

Definition env_users_abc : Env :=
  {[ "USERS" := ustr "abc"; "DUR" := ustr "" ]}.

Definition env_users_200 : Env :=
  {[ "USERS" := ustr "200"; "DUR" := ustr "5m" ]}.

Definition env_users_minus_5 : Env := {[ "USERS" := ustr "-5" ]}.

Definition env_empty_chaos : Env :=
  {[ "URL" := ustr "http://svc/ping"; "CHAOS" := ustr "";
     "LAT" := ustr "100ms" ]}.

(** An ambient environment in which [USERS] is set after the first
    iteration and what the iteration reads stays as it was. *)
Definition ambient_users_changing (i : nat) : Env :=
  match i with
  | O => env_lat_cpu
  | S _ => <["USERS" := ustr "10"]> env_lat_cpu
  end.

(** ** Definitions for the further properties *)

(** The code units [encodeURIComponent] writes: the unreserved ones and
    ["%"]. *)
Definition is_uri_safe (c : Z) : bool :=
  contains alwaysUnescaped c || (c =? 0x25).

(** What [Encode] writes for one code point. *)
Definition encoded_code_point (cp : Z) : jsstring :=
  if contains (alwaysUnescaped ++ js "") cp then [cp]
  else concat (percent_escape <$> utf8_octets cp).

(** A string of [StrWhiteSpaceChar]s. *)
Definition white_space (w : jsstring) : Prop :=
  Forall (λ c, is_StrWhiteSpaceChar c = true) w.

(** Environments for the further properties. *)
Definition env_word_chaos : Env :=
  {[ "URL" := ustr "http://svc/ping"; "CHAOS" := ustr "slow-1" ]}.

Definition env_chaos_lat_cpu : Env :=
  {[ "URL" := ustr "http://svc/ping"; "CHAOS" := ustr "lat:100ms,cpu:50" ]}.

Definition env_lat_injected : Env :=
  {[ "LAT" := ustr "100ms,err:5" ]}.

Definition env_lat_err : Env :=
  {[ "LAT" := ustr "100ms"; "ERR" := ustr "5" ]}.

Definition env_users_padded : Env := {[ "USERS" := ustr " 200 " ]}.

(** * Properties *)

(** The ranges of code units and octets, as inequalities for [lia]. *)
Ltac unfold_ranges :=
  unfold is_code_unit, is_leading_surrogate, is_trailing_surrogate,
    is_continuation in *.

(** Division and remainder by a constant, as linear arithmetic. *)
Ltac div_lia := Z.div_mod_to_equations; lia.

Create HintDb wf discriminated.

(** ** Octets and hexadecimal digits *)

Section octets.

(** A property checked on each of the 256 octets holds of every octet. *)

Lemma forall_octet (P : Z → bool) :
  forallb P (seqZ 0 256) = true → ∀ B, 0 ≤ B < 256 → P B = true.
Proof.
  intros HP B HB. rewrite forallb_forall in HP. apply HP.
  apply list_elem_of_In, elem_of_seqZ. lia.
Qed.

Lemma ParseHexOctet_percent_escape B :
  0 ≤ B < 256 →
  ParseHexOctet (hex_digit (B / 16)) (hex_digit (B mod 16)) = Some B.
Proof.
  intros HB.
  apply (forall_octet (λ B, bool_decide
    (ParseHexOctet (hex_digit (B / 16)) (hex_digit (B mod 16)) = Some B)))
    in HB; [by apply bool_decide_eq_true in HB | by vm_compute].
Qed.

Lemma leading_ones_spec B :
  0 ≤ B < 256 →
  leading_ones B =
    if B <? 0x80 then 0%nat else if B <? 0xC0 then 1%nat
    else if B <? 0xE0 then 2%nat else if B <? 0xF0 then 3%nat
    else if B <? 0xF8 then 4%nat else leading_ones B.
Proof.
  intros HB.
  apply (forall_octet (λ B, bool_decide (leading_ones B =
    if B <? 0x80 then 0%nat else if B <? 0xC0 then 1%nat
    else if B <? 0xE0 then 2%nat else if B <? 0xF0 then 3%nat
    else if B <? 0xF8 then 4%nat else leading_ones B)))
    in HB; [by apply bool_decide_eq_true in HB | by vm_compute].
Qed.

End octets.

(** ** Well-formed strings *)

Section well_formed_strings.

Lemma surrogate_is_code_unit c :
  is_leading_surrogate c || is_trailing_surrogate c = true → is_code_unit c = true.
Proof. unfold_ranges. lia. Qed.

Lemma leading_not_trailing c :
  is_leading_surrogate c = true → is_trailing_surrogate c = false.
Proof. unfold_ranges. lia. Qed.

Lemma well_formed_loop_WellFormed b s :
  well_formed_loop b s = true → WellFormed s.
Proof.
  revert s. induction b as [|b IH]; intros [|first rest]; simpl;
    [constructor | discriminate | constructor |].
  unfold CodePointAt.
  destruct (is_leading_surrogate first) eqn:Hl,
    (is_trailing_surrogate first) eqn:Ht; simpl.
  - discriminate.
  - destruct rest as [|second rest]; [discriminate|].
    destruct (is_trailing_surrogate second) eqn:Ht2; simpl; [|discriminate].
    rewrite !andb_true_iff. intros [_ ?]. apply wf_pair; auto.
  - discriminate.
  - rewrite drop_0, !andb_true_iff. intros [[? _] ?]. apply wf_unit; auto.
Qed.

Lemma WellFormed_well_formed_loop s :
  WellFormed s → ∀ b, (length s ≤ b)%nat → well_formed_loop b s = true.
Proof.
  induction 1 as [|c s Hc Hl Ht _ IH|lead trail s Hl Ht _ IH];
    intros [|b] Hb; simpl in *; try lia; try done.
  - unfold CodePointAt. rewrite Hl, Ht. simpl. rewrite Hc, drop_0. simpl.
    apply IH. lia.
  - unfold CodePointAt. rewrite Hl, (leading_not_trailing _ Hl), Ht. simpl.
    rewrite !surrogate_is_code_unit by (rewrite ?Hl, ?Ht; by rewrite ?orb_true_r).
    simpl. apply IH. lia.
Qed.

Lemma IsStringWellFormedUnicode_WellFormed s :
  IsStringWellFormedUnicode s = true ↔ WellFormed s.
Proof.
  split; [apply well_formed_loop_WellFormed|].
  intros H. by apply WellFormed_well_formed_loop.
Qed.

Lemma WellFormed_app s1 s2 : WellFormed s1 → WellFormed s2 → WellFormed (s1 ++ s2).
Proof.
  intros H1 H2. induction H1; simpl; [done | apply wf_unit | apply wf_pair]; auto.
Qed.

Lemma WellFormed_ustring (s : ustring) : WellFormed s.
Proof.
  apply IsStringWellFormedUnicode_WellFormed, Is_true_true, ustring_wf.
Qed.

Lemma WellFormed_ascii s : WellFormed (js s).
Proof.
  unfold js. induction s as [|a s IH]; simpl; [constructor|].
  assert (0 ≤ Z.of_N (N_of_ascii a) < 256) as Ha.
  { pose proof (N_ascii_bounded a). lia. }
  apply wf_unit; auto; unfold_ranges; lia.
Qed.

End well_formed_strings.

#[local] Hint Resolve WellFormed_app WellFormed_ascii WellFormed_ustring : wf.

(** ** UTF-8 and percent escapes *)

Section uri.

Lemma CodeUnitCount_CodePointAt first rest :
  CodeUnitCount (CodePointAt first rest) = 1%nat
  ∨ CodeUnitCount (CodePointAt first rest) = 2%nat.
Proof.
  unfold CodePointAt. repeat case_match; simpl; auto.
Qed.

(** The loops never use up their budget: each turn consumes a code unit. *)
Lemma Encode_loop_budget set b1 b2 s :
  (length s ≤ b1)%nat → (length s ≤ b2)%nat →
  Encode_loop b1 set s = Encode_loop b2 set s.
Proof.
  revert b2 s. induction b1 as [|b1 IH]; intros [|b2] [|C rest] H1 H2;
    simpl in H1, H2; try lia; try done.
  cbn [Encode_loop]. rewrite (IH b2 rest) by lia.
  destruct (contains set C); [done|].
  destruct (IsUnpairedSurrogate _); [done|].
  rewrite (IH b2 (drop _ _)); [done|..];
    rewrite length_drop; simpl;
    destruct (CodeUnitCount_CodePointAt C rest) as [-> | ->]; lia.
Qed.

Lemma continuation_octets_length j s Bs rest :
  continuation_octets j s = Some (Bs, rest) → (length rest ≤ length s)%nat.
Proof.
  revert s Bs. induction j as [|j IH]; intros s Bs; simpl.
  - by intros [= _ <-].
  - destruct s as [|p [|h1 [|h2 s']]]; try done.
    destruct (p =? 37); [|done].
    destruct (ParseHexOctet h1 h2); [|done]. simpl.
    destruct (continuation_octets j s') as [[Bs' rest']|] eqn:Hrec; [|done].
    simpl. intros [= _ <-]. apply IH in Hrec. simpl. lia.
Qed.

Lemma Decode_loop_budget set b1 b2 s :
  (length s ≤ b1)%nat → (length s ≤ b2)%nat →
  Decode_loop b1 set s = Decode_loop b2 set s.
Proof.
  revert b2 s. induction b1 as [|b1 IH]; intros [|b2] [|C rest] H1 H2;
    simpl in H1, H2; try lia; try done.
  cbn [Decode_loop]. rewrite (IH b2 rest) by lia.
  destruct (C =? 37); [|done].
  destruct rest as [|h1 [|h2 rest2]]; try done.
  destruct (ParseHexOctet h1 h2) as [B|]; [|done].
  simpl in H1, H2. rewrite (IH b2 rest2) by lia.
  destruct (leading_ones B =? 0)%nat; [done|].
  destruct ((leading_ones B =? 1)%nat || (4 <? leading_ones B)%nat); [done|].
  destruct (continuation_octets _ rest2) as [[Bs rest']|] eqn:Hc; [|done].
  apply continuation_octets_length in Hc.
  destruct (utf8_code_point _); [|done].
  by rewrite (IH b2 rest') by lia.
Qed.

(** Known values of the two built-ins. *)
Example encodeURIComponent_known :
  encodeURIComponent (js "a b&c=d/e?f") = Normal (js "a%20b%26c%3Dd%2Fe%3Ff")
  ∧ encodeURIComponent [0xE9; 0x20AC; 0xD83D; 0xDE00]
    = Normal (js "%C3%A9%E2%82%AC%F0%9F%98%80")
  ∧ encodeURIComponent (js "-_.!~*'()") = Normal (js "-_.!~*'()").
Proof. by vm_compute. Qed.

Example decodeURIComponent_known :
  decodeURIComponent (js "%C3%A9%e2%82%ac%F0%9F%98%80")
  = Normal [0xE9; 0x20AC; 0xD83D; 0xDE00]
  ∧ decodeURIComponent (js "%C0%80") = Throw URIError
  ∧ decodeURIComponent (js "%ED%A0%80") = Throw URIError
  ∧ decodeURIComponent (js "%F4%90%80%80") = Throw URIError
  ∧ decodeURIComponent (js "100%") = Throw URIError.
Proof. by vm_compute. Qed.

Lemma utf8_octets_ascii cp : 0 ≤ cp < 0x80 → utf8_octets cp = [cp].
Proof. intros. unfold utf8_octets. case_match; [done | lia]. Qed.

Lemma utf8_octets_spec cp :
  is_scalar_value cp → 0x80 ≤ cp →
  ∃ B Bs, utf8_octets cp = B :: Bs ∧ is_octet B ∧ Forall is_octet Bs
    ∧ leading_ones B = S (length Bs) ∧ (1 ≤ length Bs ≤ 3)%nat
    ∧ utf8_code_point (B :: Bs) = Some cp.
Proof.
  intros [Hcp Hsur] Hlo. unfold utf8_octets, is_octet.
  repeat case_match; try lia.
  all: eexists _, _; split; [reflexivity|].
  all: split; [div_lia|].
  all: split; [repeat constructor; div_lia|].
  all: split; [rewrite leading_ones_spec by div_lia;
               repeat case_match; simpl; try done; div_lia|].
  all: split; [simpl; lia|].
  all: unfold utf8_code_point, is_continuation.
  all: case_match eqn:Hc; [f_equal; div_lia|].
  all: exfalso; div_lia.
Qed.

Lemma continuation_octets_escapes Bs rest :
  Forall is_octet Bs →
  continuation_octets (length Bs) (concat (percent_escape <$> Bs) ++ rest)
  = Some (Bs, rest).
Proof.
  induction 1 as [|B Bs HB _ IH]; [done|].
  cbn [length fmap list_fmap concat percent_escape app continuation_octets].
  rewrite Z.eqb_refl, ParseHexOctet_percent_escape by done.
  cbn. by rewrite IH.
Qed.

Lemma UTF16EncodeCodePoint_unit c :
  is_code_unit c = true → UTF16EncodeCodePoint c = [c].
Proof. unfold UTF16EncodeCodePoint, is_code_unit. intros. case_match; [done|lia]. Qed.

Lemma UTF16EncodeCodePoint_pair lead trail :
  is_leading_surrogate lead = true → is_trailing_surrogate trail = true →
  UTF16EncodeCodePoint (UTF16SurrogatePairToCodePoint lead trail) = [lead; trail].
Proof.
  unfold UTF16EncodeCodePoint, UTF16SurrogatePairToCodePoint. unfold_ranges.
  intros. case_match; [lia|]. f_equal; [|f_equal]; div_lia.
Qed.

Lemma pair_is_scalar_value lead trail :
  is_leading_surrogate lead = true → is_trailing_surrogate trail = true →
  is_scalar_value (UTF16SurrogatePairToCodePoint lead trail)
  ∧ 0x10000 ≤ UTF16SurrogatePairToCodePoint lead trail.
Proof.
  unfold is_scalar_value, UTF16SurrogatePairToCodePoint. unfold_ranges. lia.
Qed.

(** [Decode] undoes the escape sequence [Encode] writes for a code point. *)
Lemma Decode_loop_escaped b cp rest :
  is_scalar_value cp →
  Decode_loop (S b) (js "") (concat (percent_escape <$> utf8_octets cp) ++ rest)
  = R ← Decode_loop b (js "") rest; Normal (UTF16EncodeCodePoint cp ++ R).
Proof.
  intros Hcp. destruct (Z.lt_ge_cases cp 0x80) as [Hlt|Hge].
  - destruct Hcp as [Hcp _]. rewrite utf8_octets_ascii by lia.
    cbn [fmap list_fmap concat percent_escape app Decode_loop].
    rewrite Z.eqb_refl, ParseHexOctet_percent_escape by lia.
    rewrite leading_ones_spec by lia.
    assert ((cp <? 0x80) = true) as -> by lia.
    rewrite UTF16EncodeCodePoint_unit by (unfold is_code_unit; lia). done.
  - destruct (utf8_octets_spec cp Hcp Hge)
      as (B & Bs & -> & HB & HBs & Hn & Hlen & HV).
    cbn [fmap list_fmap concat percent_escape app Decode_loop].
    rewrite Z.eqb_refl, ParseHexOctet_percent_escape, Hn by done.
    replace (S (length Bs) - 1)%nat with (length Bs) by lia.
    rewrite continuation_octets_escapes, HV by done.
    destruct (length Bs) as [|[|[|[|?]]]]; simpl in *; try lia; done.
Qed.

Lemma unescaped_ascii c :
  contains (alwaysUnescaped ++ js "") c = true → 0 ≤ c < 128 ∧ c ≠ 0x25.
Proof.
  unfold contains. rewrite existsb_exists.
  intros (x & Hin & <-%Z.eqb_eq).
  assert (forallb (λ x, (0 <=? x) && (x <? 128) && negb (x =? 0x25))
            (alwaysUnescaped ++ js "") = true) as Hall by (by vm_compute).
  rewrite forallb_forall in Hall. apply Hall in Hin. lia.
Qed.

Lemma length_escapes Bs :
  length (concat (percent_escape <$> Bs)) = (3 * length Bs)%nat.
Proof. induction Bs as [|B Bs IH]; [done|]. cbn. rewrite IH. lia. Qed.

Lemma utf8_octets_nonempty cp : (1 ≤ length (utf8_octets cp))%nat.
Proof. unfold utf8_octets. repeat case_match; simpl; lia. Qed.

Lemma unit_is_scalar_value c :
  is_code_unit c = true → is_leading_surrogate c = false →
  is_trailing_surrogate c = false → is_scalar_value c.
Proof. unfold is_scalar_value. unfold_ranges. lia. Qed.

(** The loops of [Encode] and [Decode] on a well-formed string: the first
    succeeds and the second gives the string back. *)
Lemma Encode_Decode_loop s :
  WellFormed s →
  ∀ b, (length s ≤ b)%nat →
  ∃ e, Encode_loop b (alwaysUnescaped ++ js "") s = Normal e
    ∧ ∀ b', (length e ≤ b')%nat → Decode_loop b' (js "") e = Normal s.
Proof.
  induction 1 as [|c s Hc Hl Ht _ IH|lead trail s Hl Ht _ IH]; intros b Hb.
  - exists []. split; [by destruct b|]. by intros [|b'].
  - destruct b as [|b]; simpl in Hb; [lia|].
    destruct (IH b ltac:(lia)) as (e & He & Hd).
    cbn [Encode_loop].
    destruct (contains (alwaysUnescaped ++ js "") c) eqn:Hu.
    + rewrite He. eexists; split; [reflexivity|].
      intros [|b'] Hb'; simpl in Hb'; [lia|].
      apply unescaped_ascii in Hu as [_ Hne].
      cbn [Decode_loop]. apply Z.eqb_neq in Hne as ->.
      rewrite Hd by lia. done.
    + unfold CodePointAt. rewrite Hl, Ht.
      cbn [negb andb IsUnpairedSurrogate CodePoint CodeUnitCount drop].
      rewrite drop_0, He.
      eexists; split; [reflexivity|].
      intros [|b'] Hb'.
      { rewrite length_app, length_escapes in Hb'.
        pose proof (utf8_octets_nonempty c). lia. }
      rewrite Decode_loop_escaped by by apply unit_is_scalar_value.
      rewrite length_app, length_escapes in Hb'.
      pose proof (utf8_octets_nonempty c).
      rewrite Hd by lia. by rewrite UTF16EncodeCodePoint_unit.
  - destruct b as [|b]; simpl in Hb; [lia|].
    destruct (IH b ltac:(lia)) as (e & He & Hd).
    cbn [Encode_loop].
    destruct (contains (alwaysUnescaped ++ js "") lead) eqn:Hu.
    { apply unescaped_ascii in Hu. unfold_ranges. lia. }
    unfold CodePointAt. rewrite Hl, (leading_not_trailing _ Hl), Ht.
    cbn [negb andb IsUnpairedSurrogate CodePoint CodeUnitCount drop].
    rewrite drop_0, He. eexists; split; [reflexivity|].
    destruct (pair_is_scalar_value _ _ Hl Ht) as [Hcp _].
    intros [|b'] Hb'.
    { rewrite length_app, length_escapes in Hb'.
      pose proof (utf8_octets_nonempty (UTF16SurrogatePairToCodePoint lead trail)).
      lia. }
    rewrite Decode_loop_escaped by done.
    rewrite length_app, length_escapes in Hb'.
    pose proof (utf8_octets_nonempty (UTF16SurrogatePairToCodePoint lead trail)).
    rewrite Hd by lia. by rewrite UTF16EncodeCodePoint_pair.
Qed.

(** [decodeURIComponent (encodeURIComponent s)] is [s], for every well-formed
    [s]. *)
Lemma decodeURIComponent_encodeURIComponent s :
  WellFormed s →
  ∃ e, encodeURIComponent s = Normal e ∧ decodeURIComponent e = Normal s.
Proof.
  intros Hs. destruct (Encode_Decode_loop s Hs (length s) ltac:(lia))
    as (e & He & Hd).
  exists e. split; [done|]. by apply Hd.
Qed.

(** An unpaired surrogate makes [encodeURIComponent] throw: the reason why
    the round trip is stated on well-formed strings. *)
Example encodeURIComponent_lone_surrogate :
  encodeURIComponent [0xD800] = Throw URIError.
Proof. reflexivity. Qed.

End uri.

(** ** Chaos string assembly *)

Lemma truthy_nonempty s : truthy s = true ↔ s ≠ [].
Proof. by destruct s. Qed.

Lemma truthy_empty s : truthy s = false ↔ s = [].
Proof. by destruct s. Qed.

Lemma assembled_empty lat err cpu :
  assembled lat err cpu = [] ↔
  ToBoolean lat = false ∧ ToBoolean err = false ∧ ToBoolean cpu = false.
Proof.
  unfold assembled.
  destruct (ToBoolean lat), (ToBoolean err), (ToBoolean cpu);
    split; (done || by intros (? & ? & ?)).
Qed.

Lemma WellFormed_ToString v :
  (∀ s, v = Some s → WellFormed s) → WellFormed (ToString v).
Proof. intros Hv. destruct v; [by apply Hv | apply WellFormed_ascii]. Qed.

Lemma WellFormed_assembled lat err cpu :
  (∀ s, lat = Some s → WellFormed s) → (∀ s, err = Some s → WellFormed s) →
  (∀ s, cpu = Some s → WellFormed s) → WellFormed (assembled lat err cpu).
Proof.
  intros Hl He Hc. unfold assembled.
  apply WellFormed_ToString in Hl, He, Hc.
  destruct (ToBoolean lat), (ToBoolean err), (ToBoolean cpu);
    repeat apply WellFormed_app; auto with wf.
Qed.

(** The script in one environment. *)
Section iteration.

Context (env : Env).

(** Lines 14-19: without a usable [CHAOS], the string is assembled from
    [LAT], [ERR] and [CPU]. *)
Lemma chaos_string_assembled :
  ToBoolean (ENV env "CHAOS") = false →
  chaos_string env = assembled (ENV env "LAT") (ENV env "ERR") (ENV env "CPU").
Proof.
  intros Hchaos. unfold chaos_string, assembled, logical_or.
  destruct (ENV env "CHAOS") as [[|c s]|]; try discriminate; cbn [truthy negb].
  all: destruct (ENV env "LAT") as [[|? ?]|], (ENV env "ERR") as [[|? ?]|],
         (ENV env "CPU") as [[|? ?]|]; reflexivity.
Qed.

(** Line 13: a non-empty [CHAOS] is the chaos string. *)
Lemma chaos_string_verbatim c :
  ENV env "CHAOS" = Some c → c ≠ [] → chaos_string env = c.
Proof.
  intros Hc Hne. unfold chaos_string, logical_or, id. rewrite Hc.
  apply truthy_nonempty in Hne. by rewrite Hne, Hne.
Qed.

Lemma chaos_string_empty :
  chaos_string env = [] ↔
  ToBoolean (ENV env "CHAOS") = false ∧ ToBoolean (ENV env "LAT") = false
  ∧ ToBoolean (ENV env "ERR") = false ∧ ToBoolean (ENV env "CPU") = false.
Proof.
  destruct (ToBoolean (ENV env "CHAOS")) eqn:Hc.
  - destruct (ENV env "CHAOS") as [c|] eqn:Hc'; [|done]. simpl in Hc.
    rewrite (chaos_string_verbatim c Hc') by by apply truthy_nonempty.
    apply truthy_nonempty in Hc. split; [done | by intros [? _]].
  - rewrite chaos_string_assembled, assembled_empty by done.
    split; [done | by intros [_ ?]].
Qed.

(** Everything the script reads and computes is well formed. *)
Lemma WellFormed_ENV k s : ENV env k = Some s → WellFormed s.
Proof.
  unfold ENV. destruct (env !! k) as [u|]; [|done].
  intros [= <-]. auto with wf.
Qed.

Lemma WellFormed_chaos_string : WellFormed (chaos_string env).
Proof.
  destruct (ToBoolean (ENV env "CHAOS")) eqn:Hc.
  - destruct (ENV env "CHAOS") as [c|] eqn:Hc'; [|done]. simpl in Hc.
    rewrite (chaos_string_verbatim c Hc') by by apply truthy_nonempty.
    by eapply WellFormed_ENV.
  - rewrite chaos_string_assembled by done.
    apply WellFormed_assembled; intros s; apply WellFormed_ENV.
Qed.

(** Line 22 never throws: the chaos string is well formed. *)
Lemma fullUrl_normal :
  ∃ e, encodeURIComponent (chaos_string env) = Normal e
     ∧ decodeURIComponent e = Normal (chaos_string env)
     ∧ fullUrl (ENV env "URL") (chaos_string env)
       = Normal (if truthy (chaos_string env)
                 then Some (ToString (ENV env "URL") ++ js "?chaos=" ++ e)
                 else ENV env "URL").
Proof.
  destruct (decodeURIComponent_encodeURIComponent _ WellFormed_chaos_string)
    as (e & He & Hd).
  exists e. split; [done|]. split; [done|].
  unfold fullUrl. rewrite He. by destruct (truthy _).
Qed.

(** Lines 24-27: the two host calls, whatever the first one answers. *)
Lemma default_function_target target :
  fullUrl (ENV env "URL") (chaos_string env) = Normal target →
  default_function env
  = Do (http_get target {| timeout := js "60s" |})
       (λ _, Do (sleep (integer 1)) (λ _, Ret tt)).
Proof.
  intros H. unfold default_function. cbv zeta. rewrite H.
  unfold mbind, prog_mbind. reflexivity.
Qed.

Lemma run_default_function target (h : host) :
  fullUrl (ENV env "URL") (chaos_string env) = Normal target →
  run h (default_function env)
  = ([HttpGet target {| timeout := js "60s" |}; Sleep (integer 1)], Normal tt).
Proof. intros H. rewrite (default_function_target target H). reflexivity. Qed.

End iteration.

(** ** Numbers *)

Section numbers.

(** Known values of [StringToNumber]. *)
Example StringToNumber_known :
  StringToNumber (js "150") = Finite 150
  ∧ StringToNumber (js "  12 ") = Finite 12
  ∧ StringToNumber (js "1e3") = Finite 1000
  ∧ StringToNumber (js "0x1F") = Finite 31
  ∧ StringToNumber (js ".5") = Finite (1 # 2)
  ∧ StringToNumber (js "0.1") = Finite (3602879701896397 # 36028797018963968)
  ∧ StringToNumber (js "9007199254740993") = Finite 9007199254740992
  ∧ StringToNumber (js "1e400") = Infinity false
  ∧ StringToNumber (js "-0") = Zero true
  ∧ StringToNumber (js " ") = Zero false
  ∧ StringToNumber (js "12abc") = NaN
  ∧ StringToNumber (js "1,5") = NaN
  ∧ StringToNumber (js "-0x1F") = NaN.
Proof. by vm_compute. Qed.

Lemma round_half_even_1 n : round_half_even n 1 = n.
Proof.
  unfold round_half_even. rewrite Z.div_1_r, Z.mod_1_r. reflexivity.
Qed.

Lemma floor_log2_1 p : 0 < p → floor_log2 p 1 = Z.log2 p.
Proof.
  intros Hp. unfold floor_log2. change (Z.log2 1) with 0.
  rewrite Z.sub_0_r. pose proof (Z.log2_nonneg p) as Hnn.
  pose proof (Z.log2_spec p Hp) as [Hle _].
  assert ((0 <=? Z.log2 p) = true) as -> by lia.
  rewrite Z.mul_1_l. by assert ((2 ^ Z.log2 p <=? p) = true) as -> by lia.
Qed.

Lemma dyadic_scaled p k : 0 ≤ k → dyadic (p * 2 ^ k) (- k) = inject_Z p.
Proof.
  intros Hk. unfold dyadic. destruct (Z.eq_dec k 0) as [->|Hne].
  - simpl. by rewrite !Z.mul_1_r.
  - assert ((0 <=? - k) = false) as -> by lia.
    rewrite Z.opp_involutive.
    assert (0 < 2 ^ k) as Hpos by (apply Z.pow_pos_nonneg; lia).
    rewrite <- (Qcanon.Qred_identity (inject_Z p)) by apply Z.gcd_1_r.
    apply Qred_complete. unfold Qeq. simpl. rewrite Z2Pos.id by done. lia.
Qed.

(** Integers up to [2 ^ 53] are Numbers: rounding leaves them alone. *)
Lemma number_for_integer negative p :
  0 < p ≤ 2 ^ 53 →
  number_for negative p 1
  = Finite (if negative then inject_Z (- p) else inject_Z p).
Proof.
  intros [Hp Hle]. unfold number_for.
  assert ((p =? 0) = false) as -> by lia.
  rewrite floor_log2_1 by done.
  pose proof (Z.log2_nonneg p) as Hnn.
  assert (Z.log2 p ≤ 53) as Hlog.
  { change 53 with (Z.log2 (2 ^ 53)). by apply Z.log2_le_mono. }
  rewrite Z.max_l by lia.
  assert (Finite (if negative then - dyadic p 0 else dyadic p 0)%Q
          = Finite (if negative then inject_Z (- p) else inject_Z p)) as Hfin.
  { unfold dyadic. simpl. rewrite Z.mul_1_r. by destruct negative. }
  destruct (Z.leb_spec 0 (Z.log2 p - 52)) as [Hu|Hu].
  - destruct (Z.eq_dec (Z.log2 p) 53) as [H53|H53].
    + assert (p = 2 ^ 53) as ->.
      { pose proof (Z.log2_spec p Hp) as [Hlo _]. rewrite H53 in Hlo. lia. }
      by destruct negative; vm_compute.
    + assert (Z.log2 p - 52 = 0) as -> by lia.
      change (1 * 2 ^ 0) with 1. rewrite round_half_even_1.
      assert ((p =? 0) = false) as -> by lia.
      change (2 ^ 0) with 1. rewrite Z.mul_1_r.
      assert ((2 ^ 1024 <=? p) = false) as ->.
      { apply Z.leb_gt. eapply Z.le_lt_trans; [exact Hle | done]. }
      done.
  - set (k := - (Z.log2 p - 52)).
    replace (Z.log2 p - 52) with (- k) in * by lia.
    rewrite round_half_even_1.
    assert (0 < 2 ^ k) as Hpos by (apply Z.pow_pos_nonneg; lia).
    assert ((p * 2 ^ k =? 0) = false) as -> by nia.
    cbn [andb]. rewrite dyadic_scaled by lia. by destruct negative.
Qed.

Lemma integer_spec n :
  - 2 ^ 53 ≤ n ≤ 2 ^ 53 →
  integer n = if n =? 0 then Zero false else Finite (inject_Z n).
Proof.
  intros Hn. unfold integer. destruct (Z.eqb_spec n 0) as [->|Hne]; [done|].
  rewrite number_for_integer by lia.
  destruct (Z.ltb_spec n 0); f_equal; f_equal; lia.
Qed.

(** *** Strings of decimal digits *)


Lemma digit_not_white c :
  is_decimal_digit c = true → is_StrWhiteSpaceChar c = false.
Proof.
  unfold is_decimal_digit, is_StrWhiteSpaceChar, contains. cbn [existsb]. lia.
Qed.

Lemma skip_white_head c s :
  is_StrWhiteSpaceChar c = false → skip_white (c :: s) = c :: s.
Proof. intros H. simpl. by rewrite H. Qed.

(** Trimming leaves a string alone when neither end is white space. *)
Lemma trim_id c s d :
  is_StrWhiteSpaceChar c = false → is_StrWhiteSpaceChar d = false →
  trim (c :: s ++ [d]) = c :: s ++ [d].
Proof.
  intros Hc Hd. unfold trim. rewrite skip_white_head by done.
  rewrite app_comm_cons, reverse_snoc, skip_white_head by done.
  by rewrite <- reverse_snoc, reverse_involutive.
Qed.

Lemma decimal_digits_ends ds :
  decimal_digits ds →
  (∃ c, ds = [c] ∧ is_decimal_digit c = true)
  ∨ (∃ c s d, ds = c :: s ++ [d] ∧ is_decimal_digit c = true
       ∧ is_decimal_digit d = true).
Proof.
  intros [Hne Hall]. destruct ds as [|c s]; [done|].
  apply Forall_cons in Hall as [Hc Hs].
  induction s as [|d s' _] using rev_ind; [left; eauto|].
  apply Forall_app in Hs as [_ Hd%Forall_inv]. right.
  exists c, s', d. simpl in *. auto.
Qed.

Lemma trim_single c : is_StrWhiteSpaceChar c = false → trim [c] = [c].
Proof. intros H. unfold trim. simpl. rewrite H. simpl. by rewrite H. Qed.

Lemma trim_decimal_digits ds : decimal_digits ds → trim ds = ds.
Proof.
  intros [(c & -> & Hc)|(c & s & d & -> & Hc & Hd)]%decimal_digits_ends.
  - by apply trim_single, digit_not_white.
  - by apply trim_id; apply digit_not_white.
Qed.

Lemma trim_minus_decimal_digits ds :
  decimal_digits ds → trim (0x2D :: ds) = 0x2D :: ds.
Proof.
  intros [(c & -> & Hc)|(c & s & d & -> & Hc & Hd)]%decimal_digits_ends.
  - by apply (trim_id _ []), digit_not_white.
  - rewrite (app_comm_cons s [d] c).
    by apply trim_id, digit_not_white.
Qed.

Lemma span_digits_all is_digit ds :
  Forall (λ c, is_digit c = true) ds → span_digits is_digit ds = (ds, []).
Proof.
  induction 1 as [|c ds Hc _ IH]; [done|]. simpl. by rewrite Hc, IH.
Qed.

Lemma NonDecimalIntegerLiteral_digit_second zero x s :
  is_decimal_digit x = true → NonDecimalIntegerLiteral (zero :: x :: s) = None.
Proof.
  unfold is_decimal_digit. intros Hx. unfold NonDecimalIntegerLiteral.
  destruct (zero =? 48); cbn [negb]; [|done].
  assert ((x =? 98) || (x =? 66) = false) as -> by lia.
  assert ((x =? 111) || (x =? 79) = false) as -> by lia.
  by assert ((x =? 120) || (x =? 88) = false) as -> by lia.
Qed.

Lemma StrUnsignedDecimalLiteral_digits ds :
  decimal_digits ds →
  StrUnsignedDecimalLiteral ds = Some (MVDecimal (digits_value 10 ds) 0).
Proof.
  intros [Hne Hall]. unfold StrUnsignedDecimalLiteral.
  rewrite bool_decide_eq_false_2.
  2:{ intros ->. apply Forall_cons in Hall as [Hc _]. done. }
  rewrite span_digits_all by done. rewrite app_nil_r.
  destruct ds; [done|]. reflexivity.
Qed.

(** A string of decimal digits denotes the Number nearest to its value. *)
Lemma StringToNumber_digits ds :
  decimal_digits ds →
  StringToNumber ds = number_for false (digits_value 10 ds) 1.
Proof.
  intros Hds. unfold StringToNumber. rewrite trim_decimal_digits by done.
  pose proof Hds as [Hne Hall].
  destruct ds as [|c ds']; [done|].
  apply Forall_cons in Hall as [Hc Hall'].
  assert (StrNumericLiteral (c :: ds')
          = Some (number_for false (digits_value 10 (c :: ds')) 1)) as ->; [|done].
  unfold StrNumericLiteral.
  assert (NonDecimalIntegerLiteral (c :: ds') = None) as ->.
  { destruct ds' as [|x s]; [done|].
    apply Forall_cons in Hall' as [Hx _].
    by apply NonDecimalIntegerLiteral_digit_second. }
  assert ((c =? 43) = false ∧ (c =? 45) = false) as [-> ->]
    by (unfold is_decimal_digit in Hc; lia).
  rewrite StrUnsignedDecimalLiteral_digits by done.
  cbn. by rewrite Z.mul_1_r.
Qed.

(** With a leading minus sign, the negated value. *)
Lemma StringToNumber_minus_digits ds :
  decimal_digits ds →
  StringToNumber (0x2D :: ds) = number_for true (digits_value 10 ds) 1.
Proof.
  intros Hds. unfold StringToNumber. rewrite trim_minus_decimal_digits by done.
  assert (StrNumericLiteral (0x2D :: ds)
          = Some (number_for true (digits_value 10 ds) 1)) as ->; [|done].
  unfold StrNumericLiteral.
  assert (NonDecimalIntegerLiteral (0x2D :: ds) = None) as ->.
  { by destruct ds as [|? ?]. }
  cbn [Z.eqb Pos.eqb].
  rewrite StrUnsignedDecimalLiteral_digits by done.
  cbn. by rewrite Z.mul_1_r.
Qed.

End numbers.

(** ** The claims *)

(** C1. With [CHAOS] unset, the chaos string is the comma-joined list of the
    tokens [lat:<LAT>], [err:<ERR>], [cpu:<CPU>] in that order, a token
    being present exactly when its input is non-empty (all eight cases, the
    empty string when none is present); [LAT=100ms], [ERR] empty, [CPU=50]
    give [lat:100ms,cpu:50]. *)
Theorem chaos_string_fixed_order (env : Env) :
  ENV env "CHAOS" = None →
  chaos_string env = assembled (ENV env "LAT") (ENV env "ERR") (ENV env "CPU")
  ∧ (ENV env "LAT" = Some (js "100ms") → ToBoolean (ENV env "ERR") = false →
     ENV env "CPU" = Some (js "50") →
     chaos_string env = js "lat:100ms,cpu:50").
Proof.
  intros Hchaos.
  assert (chaos_string env
          = assembled (ENV env "LAT") (ENV env "ERR") (ENV env "CPU")) as Heq.
  { apply chaos_string_assembled. by rewrite Hchaos. }
  split; [done|]. intros Hlat Herr Hcpu.
  rewrite Heq. unfold assembled. by rewrite Herr, Hlat, Hcpu.
Qed.

Lemma chaos_string_fixed_order_witness :
  ENV env_lat_cpu "CHAOS" = None
  ∧ chaos_string env_lat_cpu = js "lat:100ms,cpu:50".
Proof.
  split; [reflexivity|].
  refine (proj2 (chaos_string_fixed_order env_lat_cpu _) _ _ _); reflexivity.
Defined.

(** C2. A non-empty [CHAOS] is the chaos string, verbatim, whatever [LAT],
    [ERR] and [CPU] are: any two environments with that [CHAOS] have the
    same chaos string. *)
Theorem chaos_string_CHAOS_verbatim (env : Env) (c : jsstring) :
  ENV env "CHAOS" = Some c → c ≠ [] →
  chaos_string env = c
  ∧ ∀ env' : Env, ENV env' "CHAOS" = Some c →
      chaos_string env' = chaos_string env.
Proof.
  intros Hc Hne. rewrite (chaos_string_verbatim env c) by done.
  split; [done|]. intros env' Hc'. by apply chaos_string_verbatim.
Qed.

Lemma chaos_string_CHAOS_verbatim_witness :
  ENV env_custom "CHAOS" = Some (js "custom:xyz") ∧ js "custom:xyz" ≠ []
  ∧ ENV env_custom "LAT" = Some (js "ignored")
  ∧ chaos_string env_custom = js "custom:xyz".
Proof.
  split; [reflexivity|]. split; [discriminate|]. split; [reflexivity|].
  refine (proj1 (chaos_string_CHAOS_verbatim env_custom (js "custom:xyz") _ _));
    [reflexivity | discriminate].
Defined.

(** C3. When the chaos string is empty ([CHAOS], [LAT], [ERR] and [CPU] each
    unset or empty), the iteration requests the base URL itself: nothing is
    appended to it. *)
Theorem request_target_without_chaos (env : Env) :
  chaos_string env = [] →
  (ToBoolean (ENV env "CHAOS") = false ∧ ToBoolean (ENV env "LAT") = false
   ∧ ToBoolean (ENV env "ERR") = false ∧ ToBoolean (ENV env "CPU") = false)
  ∧ fullUrl (ENV env "URL") (chaos_string env) = Normal (ENV env "URL")
  ∧ ∀ h : host,
      run h (default_function env)
      = ([HttpGet (ENV env "URL") {| timeout := js "60s" |};
          Sleep (integer 1)], Normal tt).
Proof.
  intros Hempty. split; [by apply chaos_string_empty|].
  assert (fullUrl (ENV env "URL") (chaos_string env) = Normal (ENV env "URL"))
    as Hurl by by rewrite Hempty.
  split; [done|]. intros h. by apply run_default_function.
Qed.

Lemma request_target_without_chaos_witness :
  chaos_string env_plain = []
  ∧ fullUrl (ENV env_plain "URL") (chaos_string env_plain)
    = Normal (Some (js "http://svc/ping")).
Proof.
  split; [reflexivity|].
  refine (proj1 (proj2 (request_target_without_chaos env_plain _))).
  reflexivity.
Defined.

(** C4. When the chaos string [s] is non-empty, the request URL is the base
    URL, then [?chaos=], then [encodeURIComponent s]; and
    [decodeURIComponent] of that query value is [s] again. *)
Theorem request_target_with_chaos (env : Env) (u : jsstring) :
  ENV env "URL" = Some u → chaos_string env ≠ [] →
  ∃ e, encodeURIComponent (chaos_string env) = Normal e
     ∧ fullUrl (ENV env "URL") (chaos_string env)
       = Normal (Some (u ++ js "?chaos=" ++ e))
     ∧ (∀ h : host,
          run h (default_function env)
          = ([HttpGet (Some (u ++ js "?chaos=" ++ e)) {| timeout := js "60s" |};
              Sleep (integer 1)], Normal tt))
     ∧ decodeURIComponent e = Normal (chaos_string env).
Proof.
  intros Hu Hne. destruct (fullUrl_normal env) as (e & He & Hd & Hurl).
  apply truthy_nonempty in Hne. rewrite Hne, Hu in Hurl. simpl in Hurl.
  exists e. rewrite Hu. split_and!; [done..| |done].
  intros h. apply run_default_function. by rewrite Hu.
Qed.

Lemma request_target_with_chaos_witness :
  ENV env_lat_cpu "URL" = Some (js "http://svc/ping")
  ∧ chaos_string env_lat_cpu ≠ []
  ∧ ∃ e, encodeURIComponent (chaos_string env_lat_cpu) = Normal e
       ∧ fullUrl (ENV env_lat_cpu "URL") (chaos_string env_lat_cpu)
         = Normal (Some (js "http://svc/ping" ++ js "?chaos=" ++ e))
       ∧ decodeURIComponent e = Normal (chaos_string env_lat_cpu).
Proof.
  split; [reflexivity|]. split; [discriminate|].
  destruct (request_target_with_chaos env_lat_cpu (js "http://svc/ping"))
    as (e & He & Hurl & _ & Hd); [reflexivity | discriminate |].
  exists e. auto.
Defined.

(** The second scenario of section 8, in full. *)
Example request_target_lat_cpu :
  fullUrl (ENV env_lat_cpu "URL") (chaos_string env_lat_cpu)
  = Normal (Some (js "http://svc/ping?chaos=lat%3A100ms%2Ccpu%3A50")).
Proof. reflexivity. Qed.

(** C5, as the specification states it, fails: with [URL] missing nothing
    stops the run at startup, and the iteration calls [http.get]. *)
Lemma missing_URL_still_requests :
  ENV env_no_url "URL" = None
  ∧ ∀ h : host,
      run h (default_function env_no_url)
      = ([HttpGet (Some (js "undefined?chaos=lat%3A1")) {| timeout := js "60s" |};
          Sleep (integer 1)], Normal tt).
Proof. split; [reflexivity|]. intros h. reflexivity. Qed.

(** C5, amended. The script has no check of [URL]: when it is missing the
    iteration still runs and calls [http.get], on [undefined] when the chaos
    string is empty and on the string [undefined?chaos=<encoded chaos
    string>] otherwise. *)
Theorem missing_URL_unchecked (env : Env) :
  ENV env "URL" = None →
  ∃ e k,
    encodeURIComponent (chaos_string env) = Normal e
    ∧ default_function env
      = Do (http_get (if truthy (chaos_string env)
                      then Some (js "undefined?chaos=" ++ e) else None)
              {| timeout := js "60s" |}) k.
Proof.
  intros Hu. destruct (fullUrl_normal env) as (e & He & _ & Hurl).
  exists e. eexists. split; [done|].
  rewrite (default_function_target env _ Hurl), Hu.
  by destruct (truthy (chaos_string env)).
Qed.

Lemma missing_URL_unchecked_witness :
  ENV env_no_url "URL" = None
  ∧ ∃ e k,
      encodeURIComponent (chaos_string env_no_url) = Normal e
      ∧ default_function env_no_url
        = Do (http_get (if truthy (chaos_string env_no_url)
                        then Some (js "undefined?chaos=" ++ e) else None)
                {| timeout := js "60s" |}) k.
Proof.
  split; [reflexivity|]. apply (missing_URL_unchecked env_no_url). reflexivity.
Defined.

(** C6, as the specification states it, fails: a non-numeric [USERS] gives
    [NaN], not 150, and an empty [DUR] gives ["3m"], not [DUR]. *)
Lemma options_non_numeric_USERS :
  ENV env_users_abc "USERS" = Some (js "abc")
  ∧ StrNumericLiteral (trim (js "abc")) = None
  ∧ vus (options env_users_abc) = NaN
  ∧ vus (options env_users_abc) ≠ Finite 150
  ∧ ENV env_users_abc "DUR" = Some (js "")
  ∧ duration (options env_users_abc) ≠ js "".
Proof. by vm_compute. Qed.

(** C6, amended. The virtual-user count is 150 when [USERS] is unset or
    empty; for a [USERS] made of decimal digits it is the Number nearest to
    the integer they denote, the integer itself when that is positive and at
    most [2 ^ 53]. The duration is ["3m"] when [DUR] is unset or empty, and
    [DUR] otherwise. *)
Theorem options_resolution (env : Env) :
  (ToBoolean (ENV env "USERS") = false → vus (options env) = Finite 150)
  ∧ (∀ ds, ENV env "USERS" = Some ds → decimal_digits ds →
       vus (options env) = number_for false (digits_value 10 ds) 1
       ∧ (0 < digits_value 10 ds ≤ 2 ^ 53 →
          vus (options env) = Finite (inject_Z (digits_value 10 ds))))
  ∧ (ToBoolean (ENV env "DUR") = false → duration (options env) = js "3m")
  ∧ (∀ d, ENV env "DUR" = Some d → d ≠ [] → duration (options env) = d).
Proof.
  unfold options, logical_or. cbn [vus duration]. split_and!.
  - by destruct (ENV env "USERS") as [[|? ?]|].
  - intros ds -> Hds.
    assert (truthy ds = true) as -> by (apply truthy_nonempty, Hds).
    cbn [Number]. rewrite StringToNumber_digits by done.
    split; [done|]. intros Hv. by rewrite number_for_integer.
  - by destruct (ENV env "DUR") as [[|? ?]|].
  - intros d -> Hd%truthy_nonempty. by rewrite Hd.
Qed.

Lemma options_resolution_witness :
  ENV env_users_200 "USERS" = Some (js "200") ∧ decimal_digits (js "200")
  ∧ 0 < digits_value 10 (js "200") ≤ 2 ^ 53
  ∧ vus (options env_users_200) = Finite 200
  ∧ duration (options env_users_200) = js "5m"
  ∧ vus (options env_plain) = Finite 150
  ∧ duration (options env_plain) = js "3m".
Proof.
  pose proof (options_resolution env_users_200) as (_ & Hvus & _ & Hdur).
  pose proof (options_resolution env_plain) as (Hvus' & _ & Hdur' & _).
  assert (decimal_digits (js "200")) as Hds.
  { split; [discriminate | repeat constructor]. }
  assert (0 < digits_value 10 (js "200") ≤ 2 ^ 53) as Hv
    by (vm_compute; split; [reflexivity | discriminate]).
  split; [reflexivity|]. split; [exact Hds|]. split; [exact Hv|].
  split; [exact (proj2 (Hvus (js "200") eq_refl Hds) Hv)|].
  split; [apply (Hdur (js "5m") eq_refl); discriminate|].
  split; [exact (Hvus' eq_refl) | exact (Hdur' eq_refl)].
Defined.

(** C7. An iteration is exactly one [http.get] on the request target, with
    the time-out ["60s"], then [sleep(1)]; what the host answers to the
    request changes nothing: the answer is never looked at and nothing is
    sent again. *)
Theorem iteration_effects (env : Env) :
  ∃ target,
    fullUrl (ENV env "URL") (chaos_string env) = Normal target
    ∧ default_function env
      = Do (http_get target {| timeout := js "60s" |})
           (λ _ : Response, Do (sleep (integer 1)) (λ _, Ret tt))
    ∧ integer 1 = Finite 1
    ∧ ∀ h : host,
        run h (default_function env)
        = ([HttpGet target {| timeout := js "60s" |}; Sleep (integer 1)],
           Normal tt).
Proof.
  destruct (fullUrl_normal env) as (e & _ & _ & Hurl).
  eexists. split; [exact Hurl|]. split; [by apply default_function_target|].
  split; [reflexivity|]. intros h. by apply run_default_function.
Qed.

(** The assembly of lines 13-20 is the assembly the specification
    describes. *)
Lemma chaos_string_assemble_ChaosSpec env :
  chaos_string env = assemble_ChaosSpec env.
Proof.
  unfold chaos_string, assemble_ChaosSpec, logical_or, token, joined, present.
  destruct (ENV env "CHAOS") as [[|? ?]|], (ENV env "LAT") as [[|? ?]|],
    (ENV env "ERR") as [[|? ?]|], (ENV env "CPU") as [[|? ?]|];
    cbn; by rewrite ?app_nil_r.
Qed.

(** Line 22 on a base URL that is set is step 1 of the specification. *)
Lemma fullUrl_RequestTarget base chaos :
  fullUrl (Some base) chaos
  = target ← RequestTarget {| base_url := base; ChaosSpec := chaos |};
    Normal (Some target).
Proof.
  unfold fullUrl, RequestTarget. cbn [ChaosSpec base_url].
  destruct chaos as [|c s]; [done|]. cbn [truthy ToString].
  by destruct (encodeURIComponent (c :: s)).
Qed.

(** C8. While the variables the iteration reads stay what they were at
    startup (so, in particular, while the environment is unchanged), every
    iteration computes the chaos string that the assembly of the
    specification gives once at startup, and does what it did at startup;
    and when startup resolves the configuration, every iteration computes
    the request target built from the values resolved once, and the
    iterations that recompute are the iterations that reuse those values. *)
Theorem recomputation_is_reuse (env0 : Env) (ambient : nat → Env) :
  (∀ i k, k ∈ ["URL"; "CHAOS"; "LAT"; "ERR"; "CPU"] →
          ENV (ambient i) k = ENV env0 k) →
  (∀ i, chaos_string (ambient i) = assemble_ChaosSpec env0
        ∧ default_function (ambient i) = default_function env0)
  ∧ ∀ c, startup env0 = Some c →
      (∀ i, chaos_string (ambient i) = ChaosSpec c
            ∧ fullUrl (ENV (ambient i) "URL") (chaos_string (ambient i))
              = (target ← RequestTarget c; Normal (Some target))
            ∧ default_function (ambient i) = iteration_reusing c)
      ∧ ∀ n, vu_iterations ambient 0 n = vu_iterations_reusing c n.
Proof.
  intros Hfixed.
  assert (∀ i, chaos_string (ambient i) = chaos_string env0
               ∧ ENV (ambient i) "URL" = ENV env0 "URL") as Hread.
  { intros i. unfold chaos_string.
    rewrite !(Hfixed i) by (rewrite !elem_of_cons; auto 10). done. }
  assert (∀ i, default_function (ambient i) = default_function env0) as Hsame.
  { intros i. destruct (Hread i) as [Hc Hu]. unfold default_function.
    by rewrite Hc, Hu. }
  split.
  { intros i. destruct (Hread i) as [-> _].
    split; [apply chaos_string_assemble_ChaosSpec | apply Hsame]. }
  intros c Hc. unfold startup in Hc.
  destruct (ENV env0 "URL") as [base|] eqn:Hbase; [|done].
  injection Hc as <-.
  assert (default_function env0
          = iteration_reusing {| base_url := base;
                                 ChaosSpec := assemble_ChaosSpec env0 |})
    as Hbody.
  { unfold default_function, iteration_reusing. cbv zeta.
    rewrite Hbase, chaos_string_assemble_ChaosSpec, fullUrl_RequestTarget.
    unfold mbind, prog_mbind, completion_bind.
    by destruct (RequestTarget _). }
  split.
  - intros i. destruct (Hread i) as [Hchaos Hurl].
    rewrite Hsame, Hchaos, Hurl, ?Hbase, chaos_string_assemble_ChaosSpec.
    split; [done|]. split; [apply fullUrl_RequestTarget | exact Hbody].
  - intros n. generalize 0%nat.
    induction n as [|n IH]; intros i; [done|].
    cbn [vu_iterations vu_iterations_reusing].
    by rewrite Hsame, Hbody, IH.
Qed.

Lemma recomputation_is_reuse_witness :
  (∀ (i : nat) (k : string),
     k ∈ ["URL"; "CHAOS"; "LAT"; "ERR"; "CPU"] →
     ENV (ambient_users_changing i) k = ENV env_lat_cpu k)
  ∧ startup env_lat_cpu
    = Some {| base_url := js "http://svc/ping";
              ChaosSpec := js "lat:100ms,cpu:50" |}
  ∧ vu_iterations ambient_users_changing 0 3
    = vu_iterations_reusing
        {| base_url := js "http://svc/ping";
           ChaosSpec := js "lat:100ms,cpu:50" |} 3.
Proof.
  assert (∀ (i : nat) (k : string),
            k ∈ ["URL"; "CHAOS"; "LAT"; "ERR"; "CPU"] →
            ENV (ambient_users_changing i) k = ENV env_lat_cpu k) as Hfixed.
  { intros i k Hk. destruct i; [reflexivity|].
    repeat (apply elem_of_cons in Hk as [-> | Hk]; [reflexivity|]).
    by apply elem_of_nil in Hk. }
  split; [exact Hfixed|]. split; [reflexivity|].
  refine (proj2 (proj2 (recomputation_is_reuse env_lat_cpu
                          ambient_users_changing Hfixed) _ _) 3%nat).
  reflexivity.
Defined.

(** C9. A [CHAOS] that is set to the empty string counts as unset: the chaos
    string is assembled from [LAT], [ERR] and [CPU], and options, chaos
    string and iteration are those of the environment without [CHAOS]. *)
Theorem empty_CHAOS_is_unset (env : Env) :
  ENV env "CHAOS" = Some [] →
  chaos_string env = assembled (ENV env "LAT") (ENV env "ERR") (ENV env "CPU")
  ∧ chaos_string env = chaos_string (delete "CHAOS" env)
  ∧ options env = options (delete "CHAOS" env)
  ∧ default_function env = default_function (delete "CHAOS" env).
Proof.
  intros Hc.
  assert (∀ k, k ≠ "CHAOS" → ENV (delete "CHAOS" env) k = ENV env k) as Hk.
  { intros k Hne. unfold ENV. by rewrite lookup_delete_ne. }
  assert (ENV (delete "CHAOS" env) "CHAOS" = None) as Hnone.
  { unfold ENV. by rewrite lookup_delete_eq. }
  assert (chaos_string env = chaos_string (delete "CHAOS" env)) as Heq.
  { rewrite !chaos_string_assembled by by rewrite ?Hc, ?Hnone.
    by rewrite !Hk. }
  split; [apply chaos_string_assembled; by rewrite Hc|].
  split; [done|].
  split; [unfold options; by rewrite !Hk|].
  unfold default_function. by rewrite <- Heq, Hk.
Qed.

Lemma empty_CHAOS_is_unset_witness :
  ENV env_empty_chaos "CHAOS" = Some []
  ∧ chaos_string env_empty_chaos = js "lat:100ms"
  ∧ chaos_string (delete "CHAOS" env_empty_chaos) = js "lat:100ms".
Proof.
  split; [reflexivity|].
  pose proof (empty_CHAOS_is_unset env_empty_chaos eq_refl) as (H1 & H2 & _).
  split; [exact H1 | by rewrite <- H2].
Defined.

(** C10. A non-empty [USERS] goes through [Number] and nothing else: ["0"]
    gives 0, a minus sign and decimal digits give the negative integer,
    text that is no numeric literal gives [NaN]; none of them is replaced
    by the default 150, and resolution ([options], a total function) never
    throws. *)
Theorem vus_is_Number_of_USERS (env : Env) (s : jsstring) :
  ENV env "USERS" = Some s → s ≠ [] →
  vus (options env) = Number (Str s)
  ∧ (s = js "0" →
       vus (options env) = Zero false ∧ vus (options env) ≠ Finite 150)
  ∧ (∀ ds, s = 0x2D :: ds → decimal_digits ds →
       vus (options env) = number_for true (digits_value 10 ds) 1
       ∧ (0 < digits_value 10 ds ≤ 2 ^ 53 →
          vus (options env) = Finite (inject_Z (- digits_value 10 ds))
          ∧ vus (options env) ≠ Finite 150))
  ∧ (trim s ≠ [] → StrNumericLiteral (trim s) = None →
       vus (options env) = NaN ∧ vus (options env) ≠ Finite 150).
Proof.
  intros Hs Hne%truthy_nonempty.
  assert (vus (options env) = StringToNumber s) as Hvus.
  { unfold options, logical_or. cbn [vus]. by rewrite Hs, Hne. }
  rewrite Hvus. split_and!.
  - done.
  - by intros ->.
  - intros ds -> Hds. rewrite StringToNumber_minus_digits by done.
    split; [done|]. intros Hv. rewrite number_for_integer by done.
    split; [done|]. intros [= Heq]. lia.
  - intros Htext Hnone. unfold StringToNumber.
    destruct (trim s); [done|]. by rewrite Hnone.
Qed.

Lemma vus_is_Number_of_USERS_witness :
  ENV env_users_minus_5 "USERS" = Some (js "-5") ∧ js "-5" ≠ []
  ∧ vus (options env_users_minus_5) = Finite (inject_Z (- 5)).
Proof.
  split; [reflexivity|]. split; [discriminate|].
  pose proof (vus_is_Number_of_USERS env_users_minus_5 (js "-5") eq_refl)
    as Hthm.
  refine (proj1 (proj2 (proj1 (proj2 (proj2 (Hthm _))) (js "5") eq_refl _) _)).
  - discriminate.
  - split; [discriminate | repeat constructor].
  - vm_compute. split; [reflexivity | discriminate].
Defined.

(** * Further properties of the script *)



Section encode_equations.

Lemma encodeURIComponent_nil : encodeURIComponent [] = Normal [].
Proof. reflexivity. Qed.

Lemma encodeURIComponent_unit c s :
  is_leading_surrogate c = false → is_trailing_surrogate c = false →
  encodeURIComponent (c :: s)
  = R ← encodeURIComponent s; Normal (encoded_code_point c ++ R).
Proof.
  intros Hl Ht. unfold encodeURIComponent, Encode, encoded_code_point.
  cbn [length Encode_loop].
  destruct (contains (alwaysUnescaped ++ js "") c); [done|].
  unfold CodePointAt. rewrite Hl, Ht.
  cbn [negb andb IsUnpairedSurrogate CodePoint CodeUnitCount drop].
  by rewrite drop_0.
Qed.

Lemma surrogate_escaped c :
  is_leading_surrogate c || is_trailing_surrogate c = true →
  contains (alwaysUnescaped ++ js "") c = false.
Proof.
  intros Hs. destruct (contains _ c) eqn:Hu; [|done].
  apply unescaped_ascii in Hu. unfold_ranges. lia.
Qed.

Lemma encodeURIComponent_pair lead trail s :
  is_leading_surrogate lead = true → is_trailing_surrogate trail = true →
  encodeURIComponent (lead :: trail :: s)
  = R ← encodeURIComponent s;
    Normal (encoded_code_point (UTF16SurrogatePairToCodePoint lead trail) ++ R).
Proof.
  intros Hl Ht. unfold encodeURIComponent, Encode, encoded_code_point.
  change (length (lead :: trail :: s)) with (S (S (length s))).
  rewrite <- (Encode_loop_budget _ (S (length s)) (length s) s) by lia.
  generalize (S (length s)). intros b. cbn [Encode_loop].
  rewrite (surrogate_escaped lead) by by rewrite Hl.
  unfold CodePointAt. rewrite Hl, (leading_not_trailing _ Hl), Ht.
  cbn [negb andb IsUnpairedSurrogate CodePoint CodeUnitCount drop].
  rewrite drop_0.
  destruct (contains _ (UTF16SurrogatePairToCodePoint lead trail)) eqn:Hu; [|done].
  apply unescaped_ascii in Hu.
  destruct (pair_is_scalar_value _ _ Hl Ht). lia.
Qed.

Lemma encodeURIComponent_unpaired c s :
  is_leading_surrogate c || is_trailing_surrogate c = true →
  (is_leading_surrogate c = true → ∀ d s', s = d :: s' →
     is_trailing_surrogate d = false) →
  encodeURIComponent (c :: s) = Throw URIError.
Proof.
  intros Hs Hnext. unfold encodeURIComponent, Encode.
  cbn [length Encode_loop]. rewrite surrogate_escaped by done.
  unfold CodePointAt.
  destruct (is_leading_surrogate c) eqn:Hl; simpl in Hs.
  - rewrite (leading_not_trailing _ Hl). cbn [negb andb].
    destruct s as [|d s']; [done|].
    by rewrite (Hnext eq_refl d s' eq_refl).
  - by rewrite Hs.
Qed.

End encode_equations.

Section encode_properties.

Lemma encodeURIComponent_WellFormed s :
  WellFormed s → ∃ e, encodeURIComponent s = Normal e.
Proof.
  intros Hs. destruct (decodeURIComponent_encodeURIComponent s Hs) as (e & He & _).
  eauto.
Qed.

(** On code units, only a well-formed string is encoded. *)
Lemma encodeURIComponent_Normal_WellFormed n : ∀ s e,
  (length s ≤ n)%nat → Forall (λ c, is_code_unit c = true) s →
  encodeURIComponent s = Normal e → WellFormed s.
Proof.
  induction n as [|n IH]; intros [|c s] e Hn Hall Henc;
    simpl in Hn; try lia; try apply wf_nil.
  apply Forall_cons in Hall as [Hc Hall].
  destruct (is_leading_surrogate c) eqn:Hl.
  - destruct s as [|d s'].
    { rewrite encodeURIComponent_unpaired in Henc; [done|by rewrite Hl|done]. }
    destruct (is_trailing_surrogate d) eqn:Ht.
    + rewrite encodeURIComponent_pair in Henc by done.
      apply Forall_cons in Hall as [_ Hall].
      destruct (encodeURIComponent s') as [e'|] eqn:He'; [|done].
      apply wf_pair; [done..|]. apply (IH s' e'); [simpl in Hn; lia|done..].
    + rewrite encodeURIComponent_unpaired in Henc; [done|by rewrite Hl|].
      by intros _ ? ? [= <- <-].
  - destruct (is_trailing_surrogate c) eqn:Ht.
    { rewrite encodeURIComponent_unpaired in Henc;
        [done|by rewrite Hl, Ht|by rewrite Hl]. }
    rewrite encodeURIComponent_unit in Henc by done.
    destruct (encodeURIComponent s) as [e'|] eqn:He'; [|done].
    apply wf_unit; [done..|]. apply (IH s e'); [lia|done..].
Qed.

Lemma completion_Normal_or_Throw {A} (m : completion A) :
  (∃ a, m = Normal a) ∨ m = Throw URIError.
Proof. destruct m as [a|[]]; eauto. Qed.

Lemma encodeURIComponent_throws_iff s :
  Forall (λ c, is_code_unit c = true) s →
  encodeURIComponent s = Throw URIError ↔ IsStringWellFormedUnicode s = false.
Proof.
  intros Hall. split.
  - intros Hthrow. destruct (IsStringWellFormedUnicode s) eqn:Hwf; [|done].
    apply IsStringWellFormedUnicode_WellFormed, encodeURIComponent_WellFormed
      in Hwf as [e He]. congruence.
  - intros Hwf. destruct (completion_Normal_or_Throw (encodeURIComponent s))
      as [[e He]|]; [|done].
    apply (encodeURIComponent_Normal_WellFormed _ s e (le_n _) Hall),
      IsStringWellFormedUnicode_WellFormed in He. congruence.
Qed.

End encode_properties.

(** X1. Line 22 throws [URIError] exactly when the chaos string, made of
    code units, has an unpaired surrogate; otherwise it completes. *)
Theorem fullUrl_throws_iff (url : option jsstring) (chaos : jsstring) :
  Forall (λ c, is_code_unit c = true) chaos →
  fullUrl url chaos = Throw URIError ↔ IsStringWellFormedUnicode chaos = false.
Proof.
  intros Hall. rewrite <- encodeURIComponent_throws_iff by done.
  unfold fullUrl. destruct chaos as [|c s]; [done|]. cbn [truthy].
  by destruct (encodeURIComponent (c :: s)) as [e|[]].
Qed.

Lemma fullUrl_throws_iff_witness :
  Forall (λ c, is_code_unit c = true) [0x61; 0xD83D]
  ∧ IsStringWellFormedUnicode [0x61; 0xD83D] = false
  ∧ fullUrl (Some (js "http://svc/ping")) [0x61; 0xD83D] = Throw URIError.
Proof.
  assert (Forall (λ c, is_code_unit c = true) [0x61; 0xD83D]) as Hall
    by (repeat constructor).
  split; [exact Hall|]. split; [reflexivity|].
  apply (fullUrl_throws_iff _ _ Hall). reflexivity.
Defined.

Section encode_output.

Lemma unescapedSet_eq : alwaysUnescaped ++ js "" = alwaysUnescaped.
Proof. reflexivity. Qed.

Lemma utf8_octets_octets cp : is_scalar_value cp → Forall is_octet (utf8_octets cp).
Proof.
  intros Hcp. destruct (Z.lt_ge_cases cp 0x80) as [Hlt|Hge].
  - rewrite utf8_octets_ascii by (destruct Hcp; lia).
    repeat constructor; destruct Hcp; lia.
  - destruct (utf8_octets_spec cp Hcp Hge) as (B & Bs & -> & HB & HBs & _).
    by constructor.
Qed.

Lemma percent_escape_safe B :
  is_octet B → Forall (λ c, is_uri_safe c = true) (percent_escape B).
Proof.
  intros HB. apply Forall_forall. intros c Hc.
  apply (forall_octet (λ B, forallb is_uri_safe (percent_escape B)))
    in HB; [|by vm_compute].
  rewrite forallb_forall in HB. by apply HB, list_elem_of_In.
Qed.

Lemma encoded_code_point_safe cp :
  is_scalar_value cp → Forall (λ c, is_uri_safe c = true) (encoded_code_point cp).
Proof.
  intros Hcp. unfold encoded_code_point.
  destruct (contains _ cp) eqn:Hu.
  - repeat constructor. unfold is_uri_safe.
    rewrite unescapedSet_eq in Hu. by rewrite Hu.
  - apply Forall_concat, Forall_fmap.
    eapply Forall_impl; [by apply utf8_octets_octets|].
    intros B HB. by apply percent_escape_safe.
Qed.

Lemma length_encoded_code_point cp :
  is_scalar_value cp →
  (1 ≤ length (encoded_code_point cp))%nat
  ∧ (cp < 0x10000 → (length (encoded_code_point cp) ≤ 9)%nat)
  ∧ (0x10000 ≤ cp → length (encoded_code_point cp) = 12%nat).
Proof.
  intros Hcp. unfold encoded_code_point.
  destruct (contains _ cp) eqn:Hu.
  { apply unescaped_ascii in Hu. simpl. lia. }
  rewrite length_escapes. unfold utf8_octets.
  repeat case_match; simpl; lia.
Qed.

(** What [encodeURIComponent] writes for a well-formed string. *)
Lemma encodeURIComponent_output s :
  WellFormed s →
  ∃ e, encodeURIComponent s = Normal e
     ∧ Forall (λ c, is_uri_safe c = true) e
     ∧ (length s ≤ length e ≤ 9 * length s)%nat.
Proof.
  induction 1 as [|c s Hc Hl Ht _ (e & He & Hsafe & Hlen)
                  |lead trail s Hl Ht _ (e & He & Hsafe & Hlen)].
  - exists []. by repeat split.
  - rewrite encodeURIComponent_unit, He by done.
    pose proof (unit_is_scalar_value c Hc Hl Ht) as Hcp.
    destruct (length_encoded_code_point c Hcp) as (H1 & H9 & _).
    eexists. split; [reflexivity|]. split.
    + apply Forall_app. split; [by apply encoded_code_point_safe | done].
    + rewrite length_app. cbn [length].
      assert (c < 0x10000) as H9'%H9 by (unfold_ranges; lia).
      clear -Hlen H1 H9'. lia.
  - rewrite encodeURIComponent_pair, He by done.
    destruct (pair_is_scalar_value _ _ Hl Ht) as [Hcp Hhigh].
    destruct (length_encoded_code_point _ Hcp) as (H1 & _ & H12).
    specialize (H12 Hhigh).
    eexists. split; [reflexivity|]. split.
    + apply Forall_app. split; [by apply encoded_code_point_safe | done].
    + rewrite length_app. cbn [length]. clear -Hlen H1 H12. lia.
Qed.

(** [Encode] distributes over the concatenation with a well-formed prefix. *)
Lemma encodeURIComponent_app_WellFormed a b :
  WellFormed a →
  encodeURIComponent (a ++ b)
  = ea ← encodeURIComponent a; eb ← encodeURIComponent b; Normal (ea ++ eb).
Proof.
  induction 1 as [|c a Hc Hl Ht Ha IH|lead trail a Hl Ht Ha IH].
  - simpl. by destruct (encodeURIComponent b).
  - rewrite <- app_comm_cons, !encodeURIComponent_unit, IH by done.
    destruct (encodeURIComponent a), (encodeURIComponent b); try done.
    simpl. by rewrite app_assoc.
  - rewrite <- !app_comm_cons, !encodeURIComponent_pair, IH by done.
    destruct (encodeURIComponent a), (encodeURIComponent b); try done.
    simpl. by rewrite app_assoc.
Qed.

(** Unreserved code units are written as they are. *)
Lemma encodeURIComponent_unreserved s :
  Forall (λ c, contains alwaysUnescaped c = true) s →
  encodeURIComponent s = Normal s.
Proof.
  induction 1 as [|c s Hc _ IH]; [done|].
  rewrite <- unescapedSet_eq in Hc.
  pose proof (unescaped_ascii c Hc) as [Hascii _].
  rewrite encodeURIComponent_unit, IH by (unfold_ranges; lia).
  unfold encoded_code_point. by rewrite Hc.
Qed.

End encode_output.



(** X3. Encoding the comma-joined parts (lines 19 and 22) is joining the
    encoded parts with [%2C]. *)
Theorem encodeURIComponent_join (parts parts' : list jsstring) :
  Forall WellFormed parts →
  Forall2 (λ p p', encodeURIComponent p = Normal p') parts parts' →
  encodeURIComponent (join (js ",") parts) = Normal (join (js "%2C") parts').
Proof.
  intros Hwf Henc. induction Henc as [|p p' ps ps' Hp Hps IH]; [done|].
  apply Forall_cons in Hwf as [Hp_wf Hps_wf]. specialize (IH Hps_wf).
  destruct Hps as [|q q' qs qs' Hq Hqs].
  { simpl. done. }
  change (join (js ",") (p :: q :: qs))
    with (p ++ js "," ++ join (js ",") (q :: qs)).
  change (join (js "%2C") (p' :: q' :: qs'))
    with (p' ++ js "%2C" ++ join (js "%2C") (q' :: qs')).
  rewrite encodeURIComponent_app_WellFormed, Hp by done.
  rewrite encodeURIComponent_app_WellFormed, IH by apply WellFormed_ascii.
  reflexivity.
Qed.

Lemma encodeURIComponent_join_witness :
  Forall WellFormed [js "lat:100ms"; js "cpu:50"]
  ∧ Forall2 (λ p p', encodeURIComponent p = Normal p')
      [js "lat:100ms"; js "cpu:50"] [js "lat%3A100ms"; js "cpu%3A50"]
  ∧ encodeURIComponent (join (js ",") [js "lat:100ms"; js "cpu:50"])
    = Normal (join (js "%2C") [js "lat%3A100ms"; js "cpu%3A50"]).
Proof.
  assert (Forall WellFormed [js "lat:100ms"; js "cpu:50"]) as Hwf
    by (repeat constructor; apply WellFormed_ascii).
  assert (Forall2 (λ p p', encodeURIComponent p = Normal p')
      [js "lat:100ms"; js "cpu:50"] [js "lat%3A100ms"; js "cpu%3A50"]) as Henc
    by (repeat constructor).
  split; [exact Hwf|]. split; [exact Henc|].
  exact (encodeURIComponent_join _ _ Hwf Henc).
Defined.

(** X4. The request target is at least as long as the base URL, and at most
    7 code units ([?chaos=]) plus nine per code unit of the chaos string
    longer. *)
Theorem request_target_length (env : Env) (target : jsstring) :
  fullUrl (ENV env "URL") (chaos_string env) = Normal (Some target) →
  (length (ToString (ENV env "URL")) ≤ length target
   ≤ length (ToString (ENV env "URL")) + 7 + 9 * length (chaos_string env))%nat.
Proof.
  intros Hurl.
  destruct (encodeURIComponent_output _ (WellFormed_chaos_string env))
    as (e & He & _ & Hlen).
  unfold fullUrl in Hurl. rewrite He in Hurl.
  destruct (truthy (chaos_string env)); unfold mbind, completion_bind in Hurl.
  - injection Hurl as <-. rewrite length_app. cbn [length]. lia.
  - injection Hurl as ->. cbn [ToString]. lia.
Qed.

Lemma request_target_length_witness :
  fullUrl (ENV env_lat_cpu "URL") (chaos_string env_lat_cpu)
  = Normal (Some (js "http://svc/ping?chaos=lat%3A100ms%2Ccpu%3A50"))
  ∧ (length (js "http://svc/ping?chaos=lat%3A100ms%2Ccpu%3A50")
     ≤ length (js "http://svc/ping") + 7 + 9 * length (js "lat:100ms,cpu:50"))%nat.
Proof.
  split; [reflexivity|].
  refine (proj2 (request_target_length env_lat_cpu _ _)). reflexivity.
Defined.

(** X5. A [CHAOS] made of unreserved code units goes into the request
    target as it is. *)
Theorem request_target_unreserved_CHAOS (env : Env) (c : jsstring) :
  ENV env "CHAOS" = Some c → c ≠ [] →
  Forall (λ x, contains alwaysUnescaped x = true) c →
  fullUrl (ENV env "URL") (chaos_string env)
  = Normal (Some (ToString (ENV env "URL") ++ js "?chaos=" ++ c)).
Proof.
  intros Hc Hne Hun. rewrite (chaos_string_verbatim env c Hc Hne).
  unfold fullUrl. apply truthy_nonempty in Hne. rewrite Hne.
  by rewrite encodeURIComponent_unreserved.
Qed.

Lemma request_target_unreserved_CHAOS_witness :
  ENV env_word_chaos "CHAOS" = Some (js "slow-1") ∧ js "slow-1" ≠ []
  ∧ Forall (λ x, contains alwaysUnescaped x = true) (js "slow-1")
  ∧ fullUrl (ENV env_word_chaos "URL") (chaos_string env_word_chaos)
    = Normal (Some (js "http://svc/ping" ++ js "?chaos=" ++ js "slow-1")).
Proof.
  assert (Forall (λ x, contains alwaysUnescaped x = true) (js "slow-1")) as Hun
    by (repeat constructor).
  split; [reflexivity|]. split; [discriminate|]. split; [exact Hun|].
  refine (request_target_unreserved_CHAOS env_word_chaos (js "slow-1") _ _ Hun);
    [reflexivity | discriminate].
Defined.

(** X6. For one base URL, the request target determines the chaos string:
    two environments that request the same target have the same chaos
    string. *)
Theorem request_target_determines_chaos (env1 env2 : Env) :
  ENV env1 "URL" = ENV env2 "URL" →
  fullUrl (ENV env1 "URL") (chaos_string env1)
  = fullUrl (ENV env2 "URL") (chaos_string env2) →
  chaos_string env1 = chaos_string env2.
Proof.
  intros Hurl Heq.
  destruct (fullUrl_normal env1) as (e1 & _ & Hd1 & H1).
  destruct (fullUrl_normal env2) as (e2 & _ & Hd2 & H2).
  rewrite H1, H2, <- Hurl in Heq. injection Heq as Heq.
  destruct (truthy (chaos_string env1)) eqn:Ht1,
    (truthy (chaos_string env2)) eqn:Ht2.
  - injection Heq as Heq. apply app_inv_head in Heq.
    apply (app_inv_head (js "?chaos=") e1 e2) in Heq. subst e2. congruence.
  - destruct (ENV env1 "URL") as [u|]; [|done]. injection Heq as Heq.
    apply (f_equal length) in Heq. rewrite length_app in Heq.
    cbn [length] in Heq. lia.
  - destruct (ENV env1 "URL") as [u|]; [|done]. injection Heq as Heq.
    apply (f_equal length) in Heq. rewrite length_app in Heq.
    cbn [length] in Heq. lia.
  - apply truthy_empty in Ht1, Ht2. congruence.
Qed.

Lemma request_target_determines_chaos_witness :
  ENV env_lat_cpu "URL" = ENV env_chaos_lat_cpu "URL"
  ∧ fullUrl (ENV env_lat_cpu "URL") (chaos_string env_lat_cpu)
    = fullUrl (ENV env_chaos_lat_cpu "URL") (chaos_string env_chaos_lat_cpu)
  ∧ chaos_string env_lat_cpu = chaos_string env_chaos_lat_cpu.
Proof.
  split; [reflexivity|]. split; [reflexivity|].
  refine (request_target_determines_chaos env_lat_cpu env_chaos_lat_cpu _ _);
    reflexivity.
Defined.



(** X8. Assembly escapes nothing: a [LAT] that carries [,err:<b>] after
    [<a>] gives the chaos string of [LAT=<a>] with [ERR=<b>]. *)
Theorem chaos_string_values_not_escaped (env1 env2 : Env) (a b : jsstring) :
  ToBoolean (ENV env1 "CHAOS") = false → ToBoolean (ENV env2 "CHAOS") = false →
  a ≠ [] → b ≠ [] →
  ENV env1 "LAT" = Some (a ++ js ",err:" ++ b) →
  ToBoolean (ENV env1 "ERR") = false →
  ENV env2 "LAT" = Some a → ENV env2 "ERR" = Some b →
  ENV env1 "CPU" = ENV env2 "CPU" →
  chaos_string env1 = chaos_string env2.
Proof.
  intros Hc1 Hc2 Ha%truthy_nonempty Hb%truthy_nonempty Hl1 He1 Hl2 He2 Hcpu.
  rewrite !chaos_string_assembled by done. unfold assembled.
  rewrite Hl1, He1, Hl2, He2, <- Hcpu. cbn [ToBoolean ToString].
  rewrite Ha, Hb.
  assert (truthy (a ++ js ",err:" ++ b) = true) as ->
    by (apply truthy_nonempty; apply truthy_nonempty in Ha; by destruct a).
  destruct (ToBoolean (ENV env1 "CPU")); by rewrite <- ?app_assoc.
Qed.

Lemma chaos_string_values_not_escaped_witness :
  ENV env_lat_injected "LAT" = Some (js "100ms" ++ js ",err:" ++ js "5")
  ∧ ENV env_lat_err "LAT" = Some (js "100ms")
  ∧ ENV env_lat_err "ERR" = Some (js "5")
  ∧ chaos_string env_lat_injected = chaos_string env_lat_err.
Proof.
  split; [reflexivity|]. split; [reflexivity|]. split; [reflexivity|].
  refine (chaos_string_values_not_escaped env_lat_injected env_lat_err
            (js "100ms") (js "5") _ _ _ _ _ _ _ _ _);
    reflexivity || discriminate.
Defined.

(** X9. The iteration reads [URL], [CHAOS], [LAT], [ERR] and [CPU] only, and
    the options read [USERS] and [DUR] only: setting or removing any other
    variable changes neither. *)
Theorem variables_read (env : Env) (k : string) (v : ustring) :
  (k ∉ ["URL"; "CHAOS"; "LAT"; "ERR"; "CPU"] →
   default_function (<[k := v]> env) = default_function env
   ∧ default_function (delete k env) = default_function env)
  ∧ (k ∉ ["USERS"; "DUR"] →
     options (<[k := v]> env) = options env
     ∧ options (delete k env) = options env).
Proof.
  assert (∀ k', k' ≠ k → ENV (<[k := v]> env) k' = ENV env k'
                         ∧ ENV (delete k env) k' = ENV env k') as Hk.
  { intros k' Hne. unfold ENV.
    by rewrite lookup_insert_ne, lookup_delete_ne. }
  split; intros Hnot; repeat (apply not_elem_of_cons in Hnot as [? Hnot]).
  - destruct (Hk "URL") as [U1 U2], (Hk "CHAOS") as [C1 C2],
      (Hk "LAT") as [L1 L2], (Hk "ERR") as [E1 E2], (Hk "CPU") as [P1 P2];
      try done.
    unfold default_function, chaos_string.
    by rewrite U1, C1, L1, E1, P1, U2, C2, L2, E2, P2.
  - destruct (Hk "USERS") as [U1 U2], (Hk "DUR") as [D1 D2]; try done.
    unfold options. by rewrite U1, D1, U2, D2.
Qed.

Lemma variables_read_witness :
  ("USERS" ∉ ["URL"; "CHAOS"; "LAT"; "ERR"; "CPU"])
  ∧ default_function (<["USERS" := ustr "10"]> env_lat_cpu)
    = default_function env_lat_cpu.
Proof.
  assert ("USERS" ∉ ["URL"; "CHAOS"; "LAT"; "ERR"; "CPU"]) as Hnot
    by (repeat (apply not_elem_of_cons; split; [discriminate|]);
        apply not_elem_of_nil).
  split; [exact Hnot|].
  exact (proj1 (proj1 (variables_read env_lat_cpu "USERS" (ustr "10")) Hnot)).
Defined.

(** X10. The resolved duration is never the empty string: it is ["3m"] or
    the value of [DUR]. *)
Theorem duration_never_empty (env : Env) :
  duration (options env) ≠ []
  ∧ (duration (options env) = js "3m"
     ∨ ENV env "DUR" = Some (duration (options env))).
Proof.
  unfold options, logical_or. cbn [duration].
  destruct (ENV env "DUR") as [[|c d]|]; cbn [truthy id]; split; eauto; done.
Qed.

Section white_space_trimming.

Lemma skip_white_app_white w s : white_space w → skip_white (w ++ s) = skip_white s.
Proof. induction 1 as [|c w Hc _ IH]; [done|]. simpl. by rewrite Hc. Qed.

Lemma skip_white_white w : white_space w → skip_white w = [].
Proof.
  intros Hw. rewrite <- (app_nil_r w). by rewrite skip_white_app_white.
Qed.

Lemma skip_white_nil s : skip_white s = [] → white_space s.
Proof.
  induction s as [|c s IH]; [intros _; unfold white_space; constructor|].
  simpl.
  destruct (is_StrWhiteSpaceChar c) eqn:Hc; [|done].
  intros Hs. apply Forall_cons. split; [done | by apply IH].
Qed.

Lemma skip_white_app s t :
  skip_white s ≠ [] → skip_white (s ++ t) = skip_white s ++ t.
Proof.
  induction s as [|c s IH]; [done|]. simpl.
  destruct (is_StrWhiteSpaceChar c); [exact IH | done].
Qed.

Lemma white_space_reverse w : white_space w → white_space (reverse w).
Proof. unfold white_space. by rewrite Forall_reverse. Qed.

Lemma trim_white_space w1 s w2 :
  white_space w1 → white_space w2 → trim (w1 ++ s ++ w2) = trim s.
Proof.
  intros H1 H2. unfold trim. rewrite skip_white_app_white by done.
  destruct (skip_white s) as [|c t] eqn:Hs.
  - rewrite (skip_white_white (s ++ w2)); [done|].
    apply Forall_app. split; [by apply skip_white_nil | done].
  - rewrite skip_white_app, Hs by by rewrite Hs.
    rewrite reverse_app, skip_white_app_white by by apply white_space_reverse.
    done.
Qed.

End white_space_trimming.

(** X11. White space around [USERS] is ignored by the coercion; a [USERS]
    of white space alone resolves to 0, not to the default. *)
Theorem USERS_white_space_ignored (env : Env) (w1 s w2 : jsstring) :
  ENV env "USERS" = Some (w1 ++ s ++ w2) →
  white_space w1 → white_space w2 → w1 ++ s ++ w2 ≠ [] →
  vus (options env) = StringToNumber s
  ∧ (s = [] → vus (options env) = Zero false).
Proof.
  intros Hu H1 H2 Hne%truthy_nonempty.
  assert (vus (options env) = StringToNumber s) as ->.
  { unfold options, logical_or. cbn [vus]. rewrite Hu, Hne. cbn [Number].
    unfold StringToNumber. by rewrite trim_white_space. }
  split; [done|]. by intros ->.
Qed.

Lemma USERS_white_space_ignored_witness :
  ENV env_users_padded "USERS" = Some (js " " ++ js "200" ++ js " ")
  ∧ white_space (js " ")
  ∧ vus (options env_users_padded) = StringToNumber (js "200").
Proof.
  assert (white_space (js " ")) as Hw by (repeat constructor).
  split; [reflexivity|]. split; [exact Hw|].
  refine (proj1 (USERS_white_space_ignored env_users_padded (js " ") (js "200")
                   (js " ") _ Hw Hw _)); [reflexivity | discriminate].
Defined.


Section rounding.

Lemma round_half_even_ge num den : num / den ≤ round_half_even num den.
Proof. unfold round_half_even. repeat case_match; lia. Qed.

(** The Number for a positive integer is a positive integer or [+Infinity]. *)
Lemma number_for_positive p :
  0 < p →
  number_for false p 1 = Infinity false
  ∨ ∃ n, 0 < n ∧ number_for false p 1 = Finite (inject_Z n).
Proof.
  intros Hp. unfold number_for.
  assert ((p =? 0) = false) as -> by lia.
  rewrite floor_log2_1 by done.
  pose proof (Z.log2_nonneg p) as Hnn.
  pose proof (Z.log2_spec p Hp) as [Hlo _].
  rewrite Z.max_l by lia. rewrite Z.mul_1_l.
  destruct (Z.leb_spec 0 (Z.log2 p - 52)) as [Hu|Hu].
  - set (u := Z.log2 p - 52) in *.
    assert (0 < 2 ^ u) as Hpos by (apply Z.pow_pos_nonneg; lia).
    assert (2 ^ 52 ≤ p / 2 ^ u) as Hq.
    { apply Z.div_le_lower_bound; [done|].
      rewrite <- Z.pow_add_r by lia. by replace (u + 52) with (Z.log2 p) by lia. }
    pose proof (round_half_even_ge p (2 ^ u)) as Hm.
    set (m := round_half_even p (2 ^ u)) in *.
    assert (0 < m) as Hmpos by lia.
    assert ((m =? 0) = false) as -> by lia.
    cbn [andb]. destruct (2 ^ 1024 <=? m * 2 ^ u); [by left|].
    right. exists (m * 2 ^ u). split; [nia|].
    unfold dyadic. by assert ((0 <=? u) = true) as -> by lia.
  - set (k := - (Z.log2 p - 52)).
    replace (Z.log2 p - 52) with (- k) in * by lia.
    rewrite round_half_even_1.
    assert (0 < 2 ^ k) as Hpos by (apply Z.pow_pos_nonneg; lia).
    assert ((p * 2 ^ k =? 0) = false) as -> by nia.
    cbn [andb]. rewrite dyadic_scaled by lia. right. eauto.
Qed.

End rounding.

(** X12. A [USERS] of decimal digits that denote a positive integer
    resolves to a positive integer or to [+Infinity]: never to [NaN], zero
    or a negative count. *)
Theorem vus_of_digits_positive (env : Env) (ds : jsstring) :
  ENV env "USERS" = Some ds → decimal_digits ds → 0 < digits_value 10 ds →
  vus (options env) = Infinity false
  ∨ ∃ n, 0 < n ∧ vus (options env) = Finite (inject_Z n).
Proof.
  intros Hu Hds Hv.
  assert (vus (options env) = number_for false (digits_value 10 ds) 1) as ->.
  { unfold options, logical_or. cbn [vus]. rewrite Hu.
    assert (truthy ds = true) as -> by (apply truthy_nonempty, Hds).
    cbn [Number]. by apply StringToNumber_digits. }
  by apply number_for_positive.
Qed.

Lemma vus_of_digits_positive_witness :
  ENV env_users_200 "USERS" = Some (js "200") ∧ decimal_digits (js "200")
  ∧ 0 < digits_value 10 (js "200")
  ∧ (vus (options env_users_200) = Infinity false
     ∨ ∃ n, 0 < n ∧ vus (options env_users_200) = Finite (inject_Z n)).
Proof.
  assert (decimal_digits (js "200")) as Hds
    by (split; [discriminate | repeat constructor]).
  assert (0 < digits_value 10 (js "200")) as Hv by reflexivity.
  split; [reflexivity|]. split; [exact Hds|]. split; [exact Hv|].
  exact (vus_of_digits_positive env_users_200 (js "200") eq_refl Hds Hv).
Defined.

(** X13. The first [n] iterations of a virtual user, in a fixed
    environment, make [n] requests on one and the same target, each
    followed by [sleep(1)], and nothing else. *)
Theorem vu_iterations_trace (env : Env) (n : nat) (h : host) :
  ∃ target,
    fullUrl (ENV env "URL") (chaos_string env) = Normal target
    ∧ run h (vu_iterations (λ _, env) 0 n)
      = (concat (replicate n [HttpGet target {| timeout := js "60s" |};
                              Sleep (integer 1)]), Normal tt).
Proof.
  destruct (fullUrl_normal env) as (e & _ & _ & Hurl).
  eexists. split; [exact Hurl|]. generalize 0%nat.
  induction n as [|n IH]; intros i; [done|].
  cbn [vu_iterations]. rewrite (default_function_target env _ Hurl).
  unfold mbind, prog_mbind. cbn [recover prog_bind run effect_of].
  by rewrite IH.
Qed.






